(** * Ordering and filtering core of the to-do list (src/todo/TodoList.js)

    A shallow embedding of the [TodoSection] and [TodoList] components:
    the order store kept in the [ordering] state, its reconciliation
    effect, the drag handlers, the label/search filter and the
    uniform-status fold.

    JavaScript values are modelled as the code uses them:
    - a number that is an item key or an array index is a [Z]
      ([findIndex] answers [-1] when nothing matches);
    - [undefined] is [None];
    - an array is a [list]; the [ordering] array also carries the one
      non-index property the code can write on it, ["-1"];
    - a callback that dereferences a possibly [undefined] value may
      throw a [TypeError]: such code lives in the [Completion] monad;
    - a string is a [string], searched by [includes] character by
      character; [String.prototype.toLowerCase] is a parameter of the
      code that calls it, and only its value on ASCII strings is
      assumed, where a statement needs it. *)

From Stdlib Require Import ZArith String Ascii.
From stdpp Require Import base list strings.

Local Open Scope Z_scope.

(** ** Completions: a value, or a thrown TypeError *)

Inductive Completion (A : Type) : Type :=
| Normal (a : A)
| TypeError.
Arguments Normal {A} a.
Arguments TypeError {A}.

#[global] Instance Completion_ret : MRet Completion := @Normal.
#[global] Instance Completion_bind : MBind Completion :=
  λ A B f c, match c with Normal a => f a | TypeError => TypeError end.

(** ** The array methods the components call *)

Module Js.

(** Relative index of [Array.prototype.slice]: a negative argument
    counts from the end, everything is clamped to [0, len]. *)
Definition rel_index (len i : Z) : Z :=
  if i <? 0 then Z.max (len + i) 0 else Z.min i len.

(** [l.slice(start, stop)]; [stop = None] is the one-argument form. *)
Definition slice {A} (l : list A) (start : Z) (stop : option Z) : list A :=
  let len := Z.of_nat (length l) in
  let k := rel_index len start in
  let final := match stop with
               | None => len
               | Some e => rel_index len e
               end in
  take (Z.to_nat (final - k)) (drop (Z.to_nat k) l).

(** [l.findIndex(f)]: index of the first element accepted by [f];
    the callback is run on the elements in order and may throw. *)
Fixpoint findIndex_from {A} (f : A → Completion bool) (l : list A) (i : Z)
  : Completion Z :=
  match l with
  | [] => Normal (-1)
  | x :: l' => b ← f x; if b : bool then Normal i else findIndex_from f l' (i + 1)
  end.

Definition findIndex {A} (f : A → Completion bool) (l : list A) : Completion Z :=
  findIndex_from f l 0.

(** [l.every(f)]: stops at the first element rejected by [f]. *)
Fixpoint every {A} (f : A → Completion bool) (l : list A) : Completion bool :=
  match l with
  | [] => Normal true
  | x :: l' => b ← f x; if b : bool then every f l' else Normal false
  end.

(** [l.filter(f)] for a callback that may throw. *)
Fixpoint filter {A} (f : A → Completion bool) (l : list A) : Completion (list A) :=
  match l with
  | [] => Normal []
  | x :: l' =>
      b ← f x;
      rest ← filter f l';
      Normal (if b : bool then x :: rest else rest)
  end.

(** [l.reduce(f, init)]. *)
Definition reduce {A B} (f : B → A → B) (init : B) (l : list A) : B :=
  fold_left f l init.

(** [String.prototype.toLowerCase] is a primitive of the engine, defined
    by the case tables of Unicode.  It is not embedded: the code that
    calls it takes it as the parameter [toLowerCase].  What is known of
    it is its value on a string of ASCII characters, [asciiLowerCase]:
    the letters A-Z become a-z and every other character is kept. *)
Definition lower_ascii (c : ascii) : ascii :=
  let n := N_of_ascii c in
  if ((65 <=? n) && (n <=? 90))%N then ascii_of_N (n + 32) else c.

Fixpoint asciiLowerCase (s : string) : string :=
  match s with
  | EmptyString => EmptyString
  | String c s' => String (lower_ascii c) (asciiLowerCase s')
  end.

Fixpoint starts_with (w s : string) : bool :=
  match w, s with
  | EmptyString, _ => true
  | String a w', String b s' => Ascii.eqb a b && starts_with w' s'
  | String _ _, EmptyString => false
  end.

(** [s.includes(w)]: [w] occurs in [s] as a contiguous substring. *)
Fixpoint includes (s w : string) : bool :=
  starts_with w s ||
  match s with
  | EmptyString => false
  | String _ s' => includes s' w
  end.

End Js.

(** ** Data *)

(** [@typedef Label] *)
Inductive Label := red | green | blue | yellow.

#[global] Instance Label_eq_dec : EqDecision Label.
Proof. solve_decision. Defined.

(** [@typedef Filter]: [label] is [null] ([None]) or one of the four
    non-empty strings, which are all truthy. *)
Record Filter := { words : list string; label : option Label }.

(** [@typedef Item] *)
Module Item.
Record t := {
  key : Z;
  order : Z;
  description : string;
  status : bool;
  labels : list Label
}.
End Item.

(** An element of the [ordering] array: [{ key, draggable }].  The
    object built by spreading [undefined] has no [key] property, which
    reads as [undefined]: [key = None]. *)
Module Ord.
Record t := { key : option Z; draggable : bool }.
End Ord.

#[global] Instance Ord_eq_dec : EqDecision Ord.t.
Proof. solve_decision. Defined.

(** What an array slot or a property read can hold. *)
Abbreviation Value := (option Ord.t).

(** The [ordering] array: its elements, and the property ["-1"] that
    [newOrdering[index] = ...] creates when [index] is [-1].  Every method
    that builds a new array ([slice], [concat], an array literal) copies
    the elements only. *)
Record Ordering := { elems : list Value; minus1 : Value }.

Definition array_of (l : list Value) : Ordering :=
  {| elems := l; minus1 := None |}.

(** [ordering[i]] *)
Definition get (a : Ordering) (i : Z) : Value :=
  if 0 <=? i then mjoin (elems a !! Z.to_nat i)
  else if i =? -1 then minus1 a
  else None.

(** [a[i] = v].  Inside the array the slot is replaced; at [-1] the
    property ["-1"] is written and the elements stay as they are; past the
    end the array is extended (the skipped slots read as [undefined]).
    Other negative properties are not tracked: nothing reads them. *)
Definition set (a : Ordering) (i : Z) (v : Ord.t) : Ordering :=
  if 0 <=? i then
    if i <? Z.of_nat (length (elems a)) then
      {| elems := <[Z.to_nat i := Some v]> (elems a); minus1 := minus1 a |}
    else
      {| elems := elems a ++ replicate (Z.to_nat i - length (elems a)) None ++ [Some v];
         minus1 := minus1 a |}
  else if i =? -1 then {| elems := elems a; minus1 := Some v |}
  else a.

(** [{ key, draggable: false }] *)
Definition entry (key : Z) : Value :=
  Some {| Ord.key := Some key; Ord.draggable := false |}.

(** ** TodoSection *)

(** The [useState] initializer of [ordering].  [persisted] is the value of
    [cookies?.get(order_cookie)]: [None] when there is no cookie context
    or no stored value ([undefined], falsy), [Some keys] for a stored
    array (truthy, also when empty). *)
Definition initialOrdering (persisted : option (list Z)) (list : list Item.t)
  : Ordering :=
  match persisted with
  | Some ordering => array_of ((λ key, entry key) <$> ordering)
  | None => array_of ((λ item, entry (Item.key item)) <$> list)
  end.

(** [(ord) => item.key !== ord.key] *)
Definition key_differs (key : Z) (ord : Value) : Completion bool :=
  match ord with
  | None => TypeError
  | Some o => Normal (negb (bool_decide (Ord.key o = Some key)))
  end.

(** [(ord) => ord.key === key] *)
Definition key_is (key : Z) (ord : Value) : Completion bool :=
  match ord with
  | None => TypeError
  | Some o => Normal (bool_decide (Ord.key o = Some key))
  end.

(** The updater run by the [useLayoutEffect] on [props.list]. *)
Definition reconcile (list : list Item.t) (ordering : Ordering)
  : Completion Ordering :=
  fresh ← Js.filter (λ item, Js.every (key_differs (Item.key item)) (elems ordering)) list;
  Normal (array_of (elems ordering ++ ((λ item, entry (Item.key item)) <$> fresh))).

(** [{ ...v, draggable: value }] *)
Definition with_draggable (v : Value) (value : bool) : Ord.t :=
  {| Ord.key := v ≫= Ord.key; Ord.draggable := value |}.

(** The updater of [setOrderableField('draggable')(key, value)]. *)
Definition setDraggable (key : Z) (value : bool) (ordering : Ordering)
  : Completion Ordering :=
  index ← Js.findIndex (key_is key) (elems ordering);
  let newOrdering := array_of (Js.slice (elems ordering) 0 None) in
  Normal (set newOrdering index (with_draggable (get ordering index) value)).

Definition getOrder (ordering : Ordering) (key : Z) : Completion Z :=
  Js.findIndex (key_is key) (elems ordering).

(** The two updaters of [setOrder], and no update when the indices agree. *)
Definition setOrder_update (oldIndex newIndex : Z) (ordering : Ordering) : Ordering :=
  let l := elems ordering in
  if newIndex <? oldIndex then
    array_of (Js.slice l 0 (Some newIndex)
              ++ [get ordering oldIndex]
              ++ Js.slice l newIndex (Some oldIndex)
              ++ Js.slice l (oldIndex + 1) None)
  else if newIndex >? oldIndex then
    array_of (Js.slice l 0 (Some oldIndex)
              ++ Js.slice l (oldIndex + 1) (Some (newIndex + 1))
              ++ [get ordering oldIndex]
              ++ Js.slice l (newIndex + 1) None)
  else ordering.

(** [setOrder(key, newIndex)]: [oldIndex] is looked up in the [ordering]
    of the render the handler closes over, the updater runs on the current
    state. *)
Definition setOrder_in (rendered : Ordering) (key newIndex : Z) (ordering : Ordering)
  : Completion Ordering :=
  oldIndex ← Js.findIndex (key_is key) (elems rendered);
  Normal (setOrder_update oldIndex newIndex ordering).

(** Handlers run to completion and the section is rendered again before
    the next event: the closed-over [ordering] is the current state. *)
Definition setOrder (key newIndex : Z) (ordering : Ordering) : Completion Ordering :=
  setOrder_in ordering key newIndex ordering.

(** The component state: [ordering] and [dragging] ([null] is [None]). *)
Record State := { ordering : Ordering; dragging : option Z }.

(** [if (dragging)]: [null] and the number [0] are falsy. *)
Definition truthy (dragging : option Z) : bool :=
  match dragging with
  | None => false
  | Some k => negb (k =? 0)
  end.

Definition onDragStart (key : Z) (s : State) : Completion State :=
  Normal {| ordering := ordering s; dragging := Some key |}.

Definition onDragEnd (key : Z) (s : State) : Completion State :=
  o ← setDraggable key false (ordering s);
  Normal {| ordering := o; dragging := None |}.

Definition onDragEnter (key : Z) (s : State) : Completion State :=
  match dragging s with
  | Some d =>
      if truthy (dragging s) then
        newIndex ← getOrder (ordering s) key;
        o ← setOrder d newIndex (ordering s);
        Normal {| ordering := o; dragging := dragging s |}
      else Normal s
  | None => Normal s
  end.

Definition onDragDown (key : Z) (s : State) : Completion State :=
  o ← setDraggable key true (ordering s);
  Normal {| ordering := o; dragging := dragging s |}.

Definition onDragUp (key : Z) (s : State) : Completion State :=
  if negb (truthy (dragging s)) then
    o ← setDraggable key false (ordering s);
    Normal {| ordering := o; dragging := dragging s |}
  else Normal s.

(** A new [props.list] runs the reconciliation effect. *)
Definition onListChange (list : list Item.t) (s : State) : Completion State :=
  o ← reconcile list (ordering s);
  Normal {| ordering := o; dragging := dragging s |}.

(** ** TodoList *)

(** The [filtered] memo: by label, then by search words.  The first
    argument is [String.prototype.toLowerCase]. *)
Definition filtered (toLowerCase : string → string)
    (list : list Item.t) (filter : Filter) :=
  List.filter
    (λ item,
       let desc := toLowerCase (Item.description item) in
       forallb (λ word, Js.includes desc word) (words filter))
    (List.filter
       (λ item,
          match label filter with
          | None => true
          | Some l => bool_decide (l ∈ Item.labels item)
          end)
       list).

(** The reducer of the [allStatus] memo; [prev] is [null] or a status. *)
Definition status_step (acc : bool * option bool) (item : Item.t)
  : bool * option bool :=
  let '(all, prev) := acc in
  if negb all then (false, None)
  else match prev with
       | None => (all, Some (Item.status item))
       | Some p => (eqb p (Item.status item), Some (Item.status item))
       end.

Definition allStatus (filtered : list Item.t) : bool :=
  fst (Js.reduce status_step (true, None) filtered).

(** ** Vocabulary of the statements *)

(** The identifiers held by the store, in order ([undefined] for a slot
    or an object without a key). *)
Definition keys (o : Ordering) : list (option Z) :=
  (λ v : Value, v ≫= Ord.key) <$> elems o.

(** A slot of the data model: an object with an integer key. *)
Definition is_entry (v : Value) : bool :=
  match v with
  | Some {| Ord.key := Some _ |} => true
  | _ => false
  end.

(** An order store as the data model has it: every slot is an entry. *)
Definition WellFormed (o : Ordering) : Prop := Forall is_entry (elems o).

(** The slot is an entry whose [draggable] flag is set. *)
Definition is_draggable (v : Value) : bool :=
  match v with
  | Some e => Ord.draggable e
  | None => false
  end.

(** The items of a list whose key the store does not hold yet. *)
Definition unseen (o : Ordering) (items : list Item.t) : list Item.t :=
  List.filter (λ item, bool_decide (Some (Item.key item) ∉ keys o)) items.

(** Reinsertion of [x] at position [n]. *)
Definition insert_at {A} (n : nat) (x : A) (l : list A) : list A :=
  take n l ++ x :: drop n l.

(** An item as the store sees it: only its key matters. *)
Definition mkItem (k : Z) : Item.t :=
  {| Item.key := k; Item.order := 0; Item.description := "";
     Item.status := false; Item.labels := [] |}.











(** All items carry the same completion flag. *)
Definition uniform_status (items : list Item.t) : Prop :=
  ∀ x y, x ∈ items → y ∈ items → Item.status x = Item.status y.

(** ** The section as a machine driven by events *)

(** Mounting: the [useState] initializers, then the layout effect on the
    first [props.list]. *)
Definition mount (persisted : option (list Z)) (list : list Item.t)
  : Completion State :=
  o ← reconcile list (initialOrdering persisted list);
  Normal {| ordering := o; dragging := None |}.

(** What can happen to a mounted section: the five handlers of a row,
    named by the key of the row, and a new [props.list]. *)
Inductive Event :=
| DragDown (key : Z)
| DragUp (key : Z)
| DragStart (key : Z)
| DragEnter (key : Z)
| DragEnd (key : Z)
| ListChange (list : list Item.t).

Definition handle (ev : Event) (s : State) : Completion State :=
  match ev with
  | DragDown key => onDragDown key s
  | DragUp key => onDragUp key s
  | DragStart key => onDragStart key s
  | DragEnter key => onDragEnter key s
  | DragEnd key => onDragEnd key s
  | ListChange list => onListChange list s
  end.

Fixpoint run (evs : list Event) (s : State) : Completion State :=
  match evs with
  | [] => Normal s
  | ev :: evs' => s' ← handle ev s; run evs' s'
  end.

(** The order in which a pointer delivers the events of one gesture:
    the handle of a row is pressed while nothing else is going on; the
    press is released, or a drag of that row starts; while it lasts the
    pointer enters rows; the drag ends on the row that started it.  The
    item list may change at any moment; its keys are distinct. *)
Inductive Gesture :=
| Idle
| Pressed (key : Z)
| Dragging (key : Z).

(** The row a gesture is about. *)
Definition active (g : Gesture) : option Z :=
  match g with
  | Idle => None
  | Pressed k | Dragging k => Some k
  end.

(** The gesture in progress and the keys of the current [props.list]:
    only these items have a row that can receive an event. *)
Record Ui := { gesture : Gesture; rows : list Z }.

Definition follows (u : Ui) (ev : Event) : option Ui :=
  match gesture u, ev with
  | Idle, DragDown k =>
      if decide (k ∈ rows u)
      then Some {| gesture := Pressed k; rows := rows u |} else None
  | Pressed k, DragUp k' =>
      if decide (k' = k) then Some {| gesture := Idle; rows := rows u |} else None
  | Pressed k, DragStart k' =>
      if decide (k' = k) then Some {| gesture := Dragging k; rows := rows u |} else None
  | Dragging k, DragEnter j =>
      if decide (j ∈ rows u) then Some u else None
  | Dragging k, DragEnd k' =>
      if decide (k' = k) then Some {| gesture := Idle; rows := rows u |} else None
  | g, ListChange list =>
      if decide (NoDup (Item.key <$> list))
      then Some {| gesture := g; rows := Item.key <$> list |} else None
  | _, _ => None
  end.

Fixpoint protocol (u : Ui) (evs : list Event) : option Ui :=
  match evs with
  | [] => Some u
  | ev :: evs' => u' ← follows u ev; protocol u' evs'
  end.

(** What holds of the state between the events of such a sequence. *)
Definition Inv (u : Ui) (s : State) : Prop :=
  WellFormed (ordering s)
  ∧ NoDup (keys (ordering s))
  ∧ (∀ k, k ∈ rows u → Some k ∈ keys (ordering s))
  ∧ (∀ k, active (gesture u) = Some k → Some k ∈ keys (ordering s))
  ∧ (∀ e, Some e ∈ elems (ordering s) → Ord.draggable e = true →
          Ord.key e = active (gesture u))
  ∧ dragging s = match gesture u with Dragging k => Some k | _ => None end.

(** Events as a mounted section can receive them, in any order.  A drag
    starts on, and the pointer enters, the row of an item that some
    [props.list] has contained; [seen] collects those keys.  The other
    handlers may be called with any key. *)
Definition addressed (seen : list Z) (ev : Event) : option (list Z) :=
  match ev with
  | DragStart k | DragEnter k => if decide (k ∈ seen) then Some seen else None
  | ListChange list => Some (seen ++ (Item.key <$> list))
  | DragDown _ | DragUp _ | DragEnd _ => Some seen
  end.

Fixpoint deliverable (seen : list Z) (evs : list Event) : option (list Z) :=
  match evs with
  | [] => Some seen
  | ev :: evs' => seen' ← addressed seen ev; deliverable seen' evs'
  end.

(** What such events keep true: the store is well formed and holds the
    keys seen so far and the key of the active drag. *)
Definition Safe (seen : list Z) (s : State) : Prop :=
  WellFormed (ordering s)
  ∧ (∀ k, k ∈ seen → Some k ∈ keys (ordering s))
  ∧ (∀ k, dragging s = Some k → Some k ∈ keys (ordering s)).

(** ** The rest of the two components *)

(** Array methods whose callback may throw, as the remaining code uses
    them. *)
Module Arr.

(** [l.map(f)]: the callback runs on the elements in order. *)
Fixpoint map {A B} (f : A → Completion B) (l : list A) : Completion (list B) :=
  match l with
  | [] => Normal []
  | x :: l' => y ← f x; ys ← map f l'; Normal (y :: ys)
  end.

(** [l.find(f)]: the first element accepted by [f], or [undefined]; the
    callback runs on the elements in order until it accepts one, and not
    at all on an empty array. *)
Fixpoint find {A} (f : A → Completion bool) (l : list A) : Completion (option A) :=
  match l with
  | [] => Normal None
  | x :: l' => b ← f x; if b : bool then Normal (Some x) else find f l'
  end.

End Arr.

(** [`${ORDER_COOKIE}-${props.name}`]; the constant [ORDER_COOKIE] is
    imported from a module that is not part of the sources and is taken as
    a parameter. *)
Definition order_cookie (ORDER_COOKIE name : string) : string :=
  ORDER_COOKIE +:+ "-" +:+ name.

(** The value that the persistence effect hands to [cookies.set]:
    [ordering.map(({ key }) => key)].  Destructuring an [undefined] slot
    throws. *)
Definition persistedKeys (ordering : Ordering) : Completion (list (option Z)) :=
  Arr.map
    (λ ord : Value,
       match ord with
       | None => TypeError
       | Some o => Normal (Ord.key o)
       end)
    (elems ordering).

(** The [list] memo of [TodoSection]: each slot of the store paired with
    the first item of [props.list] that has its key, the pairs without an
    item left out.  [order.key] is read by the callback of [find], once
    for every item that [find] visits: on an [undefined] slot the read
    throws at the first item, and nothing is read when [props.list] is
    empty.  An item is an object, hence truthy; [undefined] is not. *)
Definition list_memo (ordering : Ordering) (list : list Item.t) :=
  pairs ← Arr.map
             (λ order : Value,
                item ← Arr.find
                          (λ item,
                             match order with
                             | None => TypeError
                             | Some o =>
                                 Normal (bool_decide
                                           (Some (Item.key item) = Ord.key o))
                             end)
                          list;
                Normal (item, order))
             (elems ordering);
  Normal (List.filter (λ '(item, _), bool_decide (is_Some item)) pairs).

(** The first item that has the key of an entry. *)
Definition itemOf (items : list Item.t) (e : Ord.t) : option Item.t :=
  List.find (λ item, bool_decide (Some (Item.key item) = Ord.key e)) items.

(** The items that have a row, in the order of the rows. *)
Definition rowItems (rs : list (option Item.t * Value)%type) : list Item.t :=
  omap fst rs.

(** [if (props.list.length === 0) return null]: whether the section
    renders anything. *)
Definition sectionShown (list : list Item.t) : bool :=
  negb (Z.of_nat (length list) =? 0).

(** [onDragOver]: whether the handler calls [event.preventDefault()],
    which is what lets the row accept a drop. *)
Definition onDragOver (s : State) : bool := truthy (dragging s).

(** The lists that [TodoList] hands to its two sections. *)
Definition inProgress (filtered : list Item.t) : list Item.t :=
  List.filter (λ item, negb (Item.status item)) filtered.

Definition completed (filtered : list Item.t) : list Item.t :=
  List.filter (λ item, Item.status item) filtered.

(** [!allStatus && <UI.HorizontalDivider />]: whether the divider between
    the sections is rendered. *)
Definition dividerShown (filtered : list Item.t) : bool :=
  negb (allStatus filtered).

(** The two tests of the [filtered] memo on one item. *)
Definition itemPasses (toLowerCase : string → string) (f : Filter)
    (item : Item.t) : bool :=
  match label f with
  | None => true
  | Some l => bool_decide (l ∈ Item.labels item)
  end
  && forallb (λ word, Js.includes (toLowerCase (Item.description item)) word)
       (words f).

(** ** ui/buttons.js *)

Module Buttons.

(** What a parameter or a property read can be: [undefined], [null], or
    a value.  Reading a property that an object does not have gives
    [undefined]. *)
Inductive JsVal (A : Type) : Type :=
| undefined
| null
| val (a : A).
Arguments undefined {A}.
Arguments null {A}.
Arguments val {A} a.

(** [a ?? b] *)
Definition coalesce {A} (a b : JsVal A) : JsVal A :=
  match a with
  | val _ => a
  | undefined | null => b
  end.

(** [undefined] and [null] are the nullish values. *)
Definition nullish {A} (v : JsVal A) : bool :=
  match v with
  | val _ => false
  | undefined | null => true
  end.

(** [`${v}`] *)
Definition interpolate (v : JsVal string) : string :=
  match v with
  | undefined => "undefined"
  | null => "null"
  | val s => s
  end.

Section button.
(** Event handlers and attribute values are passed through untouched:
    their types are left open. *)
Context {Handler Attr : Type}.

(** [@typedef ButtonOptions]; a field is [None] when the object has no
    such property, which object spread distinguishes from a property set
    to [undefined]. *)
Record ButtonOptions := {
  opt_onClick : option (JsVal Handler);
  additionalIconClass : option (JsVal string);
  ariaLabel : option (JsVal string)
}.

(** The properties that the component reads from [props]. *)
Record ButtonProps := {
  role : JsVal Attr;
  aria_label : JsVal string;
  aria_haspopup : JsVal Attr;
  aria_expanded : JsVal Attr;
  aria_checked : JsVal Attr;
  className : JsVal string;
  onClick : JsVal Handler;
  onMouseDown : JsVal Handler;
  onMouseUp : JsVal Handler;
  onPointerDown : JsVal Handler;
  onPointerUp : JsVal Handler
}.

(** The rendered [<button>] with its [<Icon>]. *)
Record ButtonElement := {
  el_role : JsVal Attr;
  el_aria_label : JsVal string;
  el_aria_haspopup : JsVal Attr;
  el_aria_expanded : JsVal Attr;
  el_aria_checked : JsVal Attr;
  el_className : JsVal string;
  el_onClick : JsVal Handler;
  el_onMouseDown : JsVal Handler;
  el_onMouseUp : JsVal Handler;
  el_onPointerDown : JsVal Handler;
  el_onPointerUp : JsVal Handler;
  icon_className : string
}.

(** [object.property] *)
Definition read {A} (p : option (JsVal A)) : JsVal A := default undefined p.

(** [button(Icon, options)(props)].  The destructuring of
    [{ additionalIconClass: "...", ...(options ?? {}) }] happens when the
    component is made and cannot throw; [options.ariaLabel] is read at
    render time, only when [props['aria-label']] is nullish, and throws
    when [options] is. *)
Definition button (options : JsVal ButtonOptions) (props : ButtonProps)
  : Completion ButtonElement :=
  let spread := match options with
                | val o => o
                | undefined | null =>
                    {| opt_onClick := None; additionalIconClass := None; ariaLabel := None |}
                end in
  let onClick0 := read (opt_onClick spread) in
  let additionalClass :=
    match additionalIconClass spread with
    | Some v => v
    | None => val "text-slate-400 hover:text-slate-900"
    end in
  label ← match aria_label props with
           | val _ => Normal (aria_label props)
           | undefined | null =>
               match options with
               | val o => Normal (read (ariaLabel o))
               | undefined | null => TypeError
               end
           end;
  Normal {| el_role := role props;
            el_aria_label := label;
            el_aria_haspopup := aria_haspopup props;
            el_aria_expanded := aria_expanded props;
            el_aria_checked := aria_checked props;
            el_className := className props;
            el_onClick := coalesce onClick0 (onClick props);
            el_onMouseDown := onMouseDown props;
            el_onMouseUp := onMouseUp props;
            el_onPointerDown := onPointerDown props;
            el_onPointerUp := onPointerUp props;
            icon_className :=
              "flex-none h-6 outline outline-2 outline-transparent focus:outline-blue-500 "
              +:+ interpolate additionalClass |}.

End button.

End Buttons.

(** * Lemmas *)

Section list_facts.
Context {A : Type}.
Implicit Types (l : list A) (x : A).

Lemma insert_at_perm n x l : insert_at n x l ≡ₚ x :: l.
Proof.
  unfold insert_at. rewrite <- Permutation_middle.
  by rewrite take_drop.
Qed.

Lemma insert_at_length n x l : length (insert_at n x l) = S (length l).
Proof. by rewrite insert_at_perm. Qed.

Lemma insert_at_lookup n x l :
  (n ≤ length l)%nat → insert_at n x l !! n = Some x.
Proof.
  intros Hn. unfold insert_at.
  rewrite lookup_app_r; rewrite length_take; [|lia].
  by replace (n - n `min` length l)%nat with 0%nat by lia.
Qed.

Lemma insert_at_delete n x l :
  (n ≤ length l)%nat → delete n (insert_at n x l) = l.
Proof.
  intros Hn. unfold insert_at.
  rewrite delete_take_drop.
  rewrite take_app_le, take_take by (rewrite length_take; lia).
  replace (n `min` n)%nat with n by lia.
  rewrite drop_app_ge by (rewrite length_take; lia).
  rewrite length_take.
  replace (S n - n `min` length l)%nat with 1%nat by lia.
  simpl. rewrite drop_0. apply take_drop.
Qed.

(** The array literal of the [newIndex < oldIndex] branch. *)
Lemma move_down_eq l (o n : nat) x :
  l !! o = Some x → (n < o)%nat →
  take n l ++ [x] ++ take (o - n) (drop n l) ++ drop (S o) l
  = insert_at n x (delete o l).
Proof.
  intros Hx Hn. apply lookup_lt_Some in Hx as Ho.
  unfold insert_at. rewrite delete_take_drop.
  rewrite take_app_le, take_take by (rewrite length_take; lia).
  replace (n `min` o)%nat with n by lia.
  rewrite drop_app_le by (rewrite length_take; lia).
  rewrite take_drop_commute.
  by replace (n + (o - n))%nat with o by lia.
Qed.

(** The array literal of the [newIndex > oldIndex] branch. *)
Lemma move_up_eq l (o n : nat) x :
  l !! o = Some x → (o < n)%nat →
  take o l ++ take (n - o) (drop (S o) l) ++ [x] ++ drop (S n) l
  = insert_at n x (delete o l).
Proof.
  intros Hx Hn. apply lookup_lt_Some in Hx as Ho.
  unfold insert_at. rewrite delete_take_drop.
  rewrite take_app_ge; rewrite length_take; [|lia].
  replace (n - o `min` length l)%nat with (n - o)%nat by lia.
  rewrite drop_app_ge; rewrite length_take; [|lia].
  replace (n - o `min` length l)%nat with (n - o)%nat by lia.
  rewrite drop_drop.
  replace (S o + (n - o))%nat with (S n) by lia.
  by rewrite <- app_assoc.
Qed.

Lemma slice_nonneg l (a b : Z) :
  0 ≤ a → 0 ≤ b →
  Js.slice l a (Some b) = take (Z.to_nat b - Z.to_nat a) (drop (Z.to_nat a) l).
Proof.
  intros Ha Hb. unfold Js.slice, Js.rel_index.
  destruct (Z.ltb_spec a 0), (Z.ltb_spec b 0); try lia.
  destruct (decide (Z.of_nat (length l) ≤ a)) as [Hge|Hlt].
  - rewrite !(drop_ge l) by lia. by rewrite !take_nil.
  - replace (Z.to_nat (a `min` Z.of_nat (length l))) with (Z.to_nat a) by lia.
    destruct (decide (b ≤ Z.of_nat (length l))).
    + f_equal. lia.
    + rewrite !take_ge; [done|rewrite length_drop; lia..].
Qed.

Lemma slice_from l (a : Z) :
  0 ≤ a → Js.slice l a None = drop (Z.to_nat a) l.
Proof.
  intros Ha. unfold Js.slice, Js.rel_index.
  destruct (Z.ltb_spec a 0); try lia.
  destruct (decide (Z.of_nat (length l) ≤ a)) as [Hge|Hlt].
  - rewrite !(drop_ge l) by lia. by rewrite take_nil.
  - replace (Z.to_nat (a `min` Z.of_nat (length l))) with (Z.to_nat a) by lia.
    rewrite take_ge; [done|rewrite length_drop; lia].
Qed.

(** [l.slice()] is a copy. *)
Lemma slice_copy l : Js.slice l 0 None = l.
Proof. rewrite slice_from by done. apply drop_0. Qed.

End list_facts.

Lemma filter_filter {A} (g h : A → bool) l :
  List.filter g (List.filter h l) = List.filter (λ x, h x && g x) l.
Proof.
  induction l as [|x l IH]; simpl; [done|].
  destruct (h x); simpl; [|done]. destruct (g x); by rewrite IH.
Qed.

Lemma filter_sublist {A} (g : A → bool) l : List.filter g l `sublist_of` l.
Proof.
  induction l as [|x l IH]; simpl; [done|].
  destruct (g x); [by apply sublist_skip|by apply sublist_cons].
Qed.

(** ** Completions *)

Lemma bind_Normal {A B} (f : A → Completion B) (a : A) :
  Normal a ≫= f = f a.
Proof. reflexivity. Qed.

Lemma bind_Normal_inv {A B} (f : A → Completion B) (c : Completion A) (b : B) :
  c ≫= f = Normal b → ∃ a, c = Normal a ∧ f a = Normal b.
Proof. destruct c as [a|]; [eauto|discriminate]. Qed.

(** ** Looking a key up *)

Lemma is_entry_inv (v : Value) :
  is_entry v → ∃ e k, v = Some e ∧ Ord.key e = Some k.
Proof. destruct v as [[[k|] d]|]; simpl; [eauto|done..]. Qed.

Lemma findIndex_from_range {A} (f : A → Completion bool) l i p :
  Js.findIndex_from f l i = Normal p →
  p = -1 ∨ i ≤ p < i + Z.of_nat (length l).
Proof.
  revert i. induction l as [|x l IH]; intros i; simpl.
  - intros [= <-]. by left.
  - destruct (f x) as [[|]|]; simpl; [|intros H|done].
    + intros [= <-]. right. lia.
    + apply IH in H as [->|H]; [by left|right; lia].
Qed.

Lemma findIndex_from_hit key (l : list Value) i p :
  Js.findIndex_from (key_is key) l i = Normal p → 0 ≤ p →
  ∃ (n : nat) e, p = i + Z.of_nat n ∧ l !! n = Some (Some e) ∧ Ord.key e = Some key.
Proof.
  revert i. induction l as [|[e|] l IH]; intros i; simpl; [| |done].
  - intros [= <-]. lia.
  - case_bool_decide as Hk; simpl.
    + intros [= <-] _. exists 0%nat, e. split; [lia|done].
    + intros H Hp.
      destruct (IH _ H Hp) as (n & e' & -> & Hn & He').
      exists (S n), e'. split; [lia|done].
Qed.

Lemma findIndex_from_miss key (l : list Value) i :
  Forall is_entry l → Some key ∉ (λ v : Value, v ≫= Ord.key) <$> l →
  Js.findIndex_from (key_is key) l i = Normal (-1).
Proof.
  intros Hwf. revert i. induction Hwf as [|v l Hv _ IH]; intros i Hnot; [done|].
  apply is_entry_inv in Hv as (e & k & -> & Hk). simpl in *.
  rewrite not_elem_of_cons in Hnot. destruct Hnot as [Hne Hnot].
  rewrite bool_decide_eq_false_2 by congruence. simpl. by apply IH.
Qed.

Lemma findIndex_from_present key (l : list Value) i :
  Forall is_entry l → Some key ∈ (λ v : Value, v ≫= Ord.key) <$> l →
  ∃ (n : nat) e, Js.findIndex_from (key_is key) l i = Normal (i + Z.of_nat n)
                 ∧ l !! n = Some (Some e) ∧ Ord.key e = Some key.
Proof.
  intros Hwf. revert i. induction Hwf as [|v l Hv _ IH]; intros i Hin.
  - by apply elem_of_nil in Hin.
  - apply is_entry_inv in Hv as (e & k & -> & Hk). simpl in *.
    case_bool_decide as Hd; simpl.
    + exists 0%nat, e. split; [f_equal; lia|done].
    + apply elem_of_cons in Hin as [Hin|Hin]; [congruence|].
      destruct (IH (i + 1) Hin) as (n & e' & Hf & Hn & He').
      exists (S n), e'. rewrite Hf. split; [f_equal; lia|done].
Qed.

Lemma getOrder_hit o key p :
  getOrder o key = Normal p → 0 ≤ p →
  ∃ (n : nat) e, p = Z.of_nat n ∧ elems o !! n = Some (Some e) ∧ Ord.key e = Some key.
Proof.
  intros H Hp. destruct (findIndex_from_hit _ _ _ _ H Hp) as (n & e & -> & ?).
  exists n, e. split; [lia|done].
Qed.

Lemma getOrder_present o key :
  WellFormed o → Some key ∈ keys o →
  ∃ (n : nat) e, getOrder o key = Normal (Z.of_nat n)
                 ∧ elems o !! n = Some (Some e) ∧ Ord.key e = Some key.
Proof.
  intros Hwf Hin.
  destruct (findIndex_from_present key _ 0 Hwf Hin) as (n & e & Hf & ?).
  exists n, e. by rewrite Z.add_0_l in Hf.
Qed.

Lemma getOrder_absent o key :
  WellFormed o → Some key ∉ keys o → getOrder o key = Normal (-1).
Proof. intros. by apply findIndex_from_miss. Qed.

(** ** Moving an entry *)

Lemma get_lookup o (n : nat) v :
  elems o !! n = Some v → get o (Z.of_nat n) = v.
Proof.
  intros H. unfold get.
  destruct (Z.leb_spec 0 (Z.of_nat n)); [|lia].
  by rewrite Nat2Z.id, H.
Qed.

Lemma setOrder_update_same i o : setOrder_update i i o = o.
Proof.
  unfold setOrder_update.
  destruct (Z.ltb_spec i i); [lia|].
  destruct (Z.gtb_spec i i); [lia|done].
Qed.

Lemma setOrder_update_move o (old : nat) (new : Z) v :
  elems o !! old = Some v → 0 ≤ new → new ≠ Z.of_nat old →
  setOrder_update (Z.of_nat old) new o
  = array_of (insert_at (Z.to_nat new) v (delete old (elems o))).
Proof.
  intros Hv Hnew Hne. unfold setOrder_update.
  rewrite (get_lookup _ _ _ Hv).
  destruct (Z.ltb_spec new (Z.of_nat old)).
  - rewrite !slice_nonneg, slice_from by lia.
    rewrite drop_0, Nat.sub_0_r.
    replace (Z.to_nat (Z.of_nat old + 1)) with (S old) by lia.
    rewrite Nat2Z.id. f_equal.
    rewrite <- (move_down_eq _ _ _ _ Hv) by lia. done.
  - destruct (Z.gtb_spec new (Z.of_nat old)); [|lia].
    rewrite !slice_nonneg, slice_from by lia.
    rewrite drop_0, Nat.sub_0_r.
    replace (Z.to_nat (Z.of_nat old + 1)) with (S old) by lia.
    replace (Z.to_nat (new + 1)) with (S (Z.to_nat new)) by lia.
    rewrite Nat2Z.id. f_equal.
    rewrite <- (move_up_eq _ _ _ _ Hv) by lia.
    by replace (S (Z.to_nat new) - S old)%nat with (Z.to_nat new - old)%nat by lia.
Qed.

Lemma setOrder_present o id (p : nat) v (t : Z) :
  getOrder o id = Normal (Z.of_nat p) → elems o !! p = Some v → 0 ≤ t →
  ∃ o', setOrder id t o = Normal o'
        ∧ elems o' = insert_at (Z.to_nat t) v (delete p (elems o))
        ∧ (t = Z.of_nat p → o' = o).
Proof.
  intros Hget Hv Ht. unfold setOrder, setOrder_in.
  unfold getOrder in Hget. rewrite Hget, bind_Normal.
  eexists. split; [done|].
  destruct (decide (t = Z.of_nat p)) as [->|Hne].
  - rewrite setOrder_update_same. split; [|done].
    rewrite Nat2Z.id. unfold insert_at. rewrite delete_take_drop.
    apply lookup_lt_Some in Hv as Hp.
    rewrite take_app_le, take_take by (rewrite length_take; lia).
    rewrite drop_app_ge by (rewrite length_take; lia).
    rewrite length_take, drop_drop.
    replace (p `min` p)%nat with p by lia.
    replace (S p + (p - p `min` length (elems o)))%nat with (S p) by lia.
    symmetry. by apply take_drop_middle.
  - rewrite (setOrder_update_move _ _ _ _ Hv) by done. by split.
Qed.

(** ** Reconciliation *)

Lemma every_app {A} (f : A → Completion bool) l1 l2 :
  Js.every f (l1 ++ l2)
  = b ← Js.every f l1; if b : bool then Js.every f l2 else Normal false.
Proof.
  induction l1 as [|x l1 IH]; simpl; [done|].
  destruct (f x) as [[|]|]; simpl; done.
Qed.

Lemma every_differs_wf key (l : list Value) :
  Forall is_entry l →
  Js.every (key_differs key) l
  = Normal (bool_decide (Some key ∉ (λ v : Value, v ≫= Ord.key) <$> l)).
Proof.
  induction 1 as [|v l Hv _ IH]; [done|].
  apply is_entry_inv in Hv as (e & k & -> & Hk).
  rewrite fmap_cons. cbn [Js.every key_differs]. rewrite bind_Normal.
  destruct (decide (Ord.key e = Some key)) as [He|He].
  - rewrite (bool_decide_eq_true_2 _ He). simpl.
    rewrite bool_decide_eq_false_2; [done|].
    intros Hnot. apply Hnot. rewrite He. by left.
  - rewrite (bool_decide_eq_false_2 _ He), IH. simpl. f_equal.
    apply bool_decide_ext. rewrite not_elem_of_cons. split; [by intros|by intros []].
Qed.

Lemma every_differs_hit (x : Item.t) (fresh : list Item.t) :
  x ∈ fresh →
  Js.every (key_differs (Item.key x)) ((λ item, entry (Item.key item)) <$> fresh)
  = Normal false.
Proof.
  induction fresh as [|y fresh IH]; intros Hin.
  - by apply elem_of_nil in Hin.
  - simpl. case_bool_decide as Hd; simpl; [done|].
    apply elem_of_cons in Hin as [->|Hin]; [done|by apply IH].
Qed.

Lemma filter_pure {A} (f : A → Completion bool) (g : A → bool) l :
  (∀ x, x ∈ l → f x = Normal (g x)) → Js.filter f l = Normal (List.filter g l).
Proof.
  induction l as [|x l IH]; intros Hf; simpl; [done|].
  rewrite Hf by left. simpl.
  rewrite IH by (intros; apply Hf; by right). simpl.
  by destruct (g x).
Qed.

Lemma filter_Normal_inv {A} (f : A → Completion bool) l r :
  Js.filter f l = Normal r →
  ∀ x, x ∈ l → ∃ b : bool, f x = Normal b ∧ (b = true → x ∈ r).
Proof.
  revert r. induction l as [|y l IH]; intros r Hr x Hin.
  - by apply elem_of_nil in Hin.
  - simpl in Hr.
    apply bind_Normal_inv in Hr as (b & Hb & Hr).
    apply bind_Normal_inv in Hr as (rest & Hrest & [= <-]).
    apply elem_of_cons in Hin as [->|Hin].
    + exists b. split; [done|]. intros ->. by left.
    + destruct (IH _ Hrest x Hin) as (b' & Hb' & Hin').
      exists b'. split; [done|]. intros Ht.
      destruct b; [right|]; auto.
Qed.

Lemma reconcile_wf list o :
  WellFormed o →
  reconcile list o
  = Normal (array_of
              (elems o
               ++ ((λ item, entry (Item.key item)) <$>
                     List.filter
                       (λ item, bool_decide (Some (Item.key item) ∉ keys o))
                       list))).
Proof.
  intros Hwf. unfold reconcile.
  rewrite (filter_pure _ (λ item, bool_decide (Some (Item.key item) ∉ keys o))).
  - done.
  - intros x _. by apply every_differs_wf.
Qed.

(** A second run of the effect on the same list finds nothing new, on
    any array on which the first run did not throw. *)
Lemma reconcile_twice list o o' :
  reconcile list o = Normal o' → reconcile list o' = Normal o'.
Proof.
  unfold reconcile. intros H.
  apply bind_Normal_inv in H as (fresh & Hfresh & [= <-]). simpl.
  rewrite (filter_pure _ (λ _, false)).
  - clear. induction list as [|x l IH]; simpl; [by rewrite app_nil_r|done].
  - intros x Hx.
    destruct (filter_Normal_inv _ _ _ Hfresh x Hx) as (b & Hb & Hin).
    rewrite every_app, Hb. simpl.
    destruct b; [|done]. by apply every_differs_hit, Hin.
Qed.

Lemma reconcile_WellFormed list o o' :
  WellFormed o → reconcile list o = Normal o' → WellFormed o'.
Proof.
  intros Hwf. rewrite reconcile_wf by done. intros [= <-].
  unfold WellFormed. simpl. apply Forall_app. split; [done|].
  apply Forall_forall. intros v Hv.
  apply list_elem_of_fmap in Hv as (item & -> & _). done.
Qed.

Lemma unseen_spec o (items : list Item.t) item :
  item ∈ unseen o items ↔ item ∈ items ∧ Some (Item.key item) ∉ keys o.
Proof.
  unfold unseen.
  rewrite list_elem_of_In, filter_In, bool_decide_eq_true.
  by rewrite <- list_elem_of_In.
Qed.

Lemma keys_appended o (l : list Item.t) :
  keys (array_of (elems o ++ ((λ item, entry (Item.key item)) <$> l)))
  = keys o ++ (Some <$> (Item.key <$> l)).
Proof. unfold keys. simpl. by rewrite fmap_app, <- !list_fmap_compose. Qed.

Lemma unseen_NoDup o (items : list Item.t) :
  NoDup (keys o) → NoDup (Item.key <$> items) →
  NoDup (keys o ++ (Some <$> (Item.key <$> unseen o items))).
Proof.
  intros Hnd Hitems. apply NoDup_app. split_and!; [done| |].
  - intros x Hx (k & -> & (item & -> & Hin)%list_elem_of_fmap)%list_elem_of_fmap.
    by apply unseen_spec in Hin as [_ Hin].
  - apply (NoDup_fmap_2 _). eapply sublist_NoDup; [exact Hitems|].
    apply fmap_sublist, filter_sublist.
Qed.

Lemma unseen_covers o (items : list Item.t) k :
  k ∈ Item.key <$> items →
  Some k ∈ keys o ++ (Some <$> (Item.key <$> unseen o items)).
Proof.
  intros (item & -> & Hin)%list_elem_of_fmap. apply elem_of_app.
  destruct (decide (Some (Item.key item) ∈ keys o)) as [?|Hnot]; [by left|].
  right. by apply list_elem_of_fmap_2, list_elem_of_fmap_2, unseen_spec.
Qed.

(** ** Strings *)



(** ** Letter case *)









(** ** The uniform-status fold *)

Lemma status_fold_false (l : list Item.t) prev :
  fst (fold_left status_step l (false, prev)) = false.
Proof. revert prev. induction l as [|x l IH]; intros prev; simpl; [done|apply IH]. Qed.

Lemma status_fold_some (l : list Item.t) (b : bool) :
  fst (fold_left status_step l (true, Some b))
  = forallb (λ item, eqb b (Item.status item)) l.
Proof.
  revert b. induction l as [|x l IH]; intros b; simpl; [done|].
  destruct (eqb b (Item.status x)) eqn:Hb; simpl.
  - apply eqb_prop in Hb as ->. apply IH.
  - apply status_fold_false.
Qed.

(** ** The filter *)




(** ** Setting the draggable flag *)

Lemma setDraggable_present o k b :
  WellFormed o → Some k ∈ keys o →
  ∃ (n : nat) e,
    elems o !! n = Some (Some e) ∧ Ord.key e = Some k
    ∧ setDraggable k b o
      = Normal {| elems := <[n := Some {| Ord.key := Some k; Ord.draggable := b |}]>
                             (elems o);
                  minus1 := None |}.
Proof.
  intros Hwf Hin.
  destruct (getOrder_present o k Hwf Hin) as (n & e & Hget & Hn & He).
  exists n, e. split_and!; [done..|].
  unfold setDraggable. unfold getOrder in Hget. rewrite Hget, bind_Normal.
  rewrite slice_copy, (get_lookup _ _ _ Hn).
  apply lookup_lt_Some in Hn as Hlt.
  unfold set, array_of, with_draggable; simpl.
  destruct (Z.leb_spec 0 (Z.of_nat n)); [|lia].
  destruct (Z.ltb_spec (Z.of_nat n) (Z.of_nat (length (elems o)))); [|lia].
  by rewrite Nat2Z.id, He.
Qed.

(** With an unknown key, [index] is [-1]: the assignment lands on the
    property ["-1"] of the copy and no element changes. *)
Lemma setDraggable_absent o k b :
  WellFormed o → Some k ∉ keys o →
  setDraggable k b o
  = Normal {| elems := elems o;
              minus1 := Some {| Ord.key := minus1 o ≫= Ord.key; Ord.draggable := b |} |}.
Proof.
  intros Hwf Hnot. unfold setDraggable.
  pose proof (getOrder_absent o k Hwf Hnot) as Hget.
  unfold getOrder in Hget. rewrite Hget, bind_Normal.
  by rewrite slice_copy.
Qed.

Lemma keys_insert_same o (n : nat) e k b m :
  elems o !! n = Some (Some e) → Ord.key e = Some k →
  keys {| elems := <[n := Some {| Ord.key := Some k; Ord.draggable := b |}]> (elems o);
          minus1 := m |}
  = keys o.
Proof.
  intros Hn He. unfold keys. simpl.
  rewrite list_fmap_insert. apply list_insert_id.
  rewrite list_lookup_fmap, Hn. simpl. by rewrite He.
Qed.

Lemma setDraggable_keys o k b :
  WellFormed o →
  ∃ o', setDraggable k b o = Normal o' ∧ keys o' = keys o ∧ WellFormed o'
        ∧ length (elems o') = length (elems o)
        ∧ (Some k ∉ keys o → elems o' = elems o).
Proof.
  intros Hwf. destruct (decide (Some k ∈ keys o)) as [Hin|Hnot].
  - destruct (setDraggable_present o k b Hwf Hin) as (n & e & Hn & He & ->).
    eexists. split; [done|]. split_and!.
    + by eapply keys_insert_same.
    + unfold WellFormed. simpl. by apply Forall_insert.
    + simpl. apply length_insert.
    + done.
  - rewrite (setDraggable_absent o k b Hwf Hnot). eexists. by split_and!.
Qed.

(** ** The invariant of a gesture *)

Lemma Inv_rearranged u s o' :
  elems o' ≡ₚ elems (ordering s) →
  Inv u s → Inv u {| ordering := o'; dragging := dragging s |}.
Proof.
  intros Hperm (Hwf & Hnd & Hrows & Hact & Hflags & Hdrag).
  assert (keys o' ≡ₚ keys (ordering s)) as Hkeys.
  { unfold keys. by rewrite Hperm. }
  unfold Inv, WellFormed. simpl. split_and!.
  - by rewrite Hperm.
  - by rewrite Hkeys.
  - intros k Hk. rewrite Hkeys. auto.
  - intros k Hk. rewrite Hkeys. auto.
  - intros e He. rewrite Hperm in He. auto.
  - done.
Qed.

Lemma Inv_DragDown rows s k :
  Inv {| gesture := Idle; rows := rows |} s → k ∈ rows →
  ∃ s', onDragDown k s = Normal s'
        ∧ Inv {| gesture := Pressed k; rows := rows |} s'.
Proof.
  intros (Hwf & Hnd & Hrows & Hact & Hflags & Hdrag) Hk. simpl in *.
  destruct (setDraggable_present (ordering s) k true Hwf (Hrows k Hk))
    as (n & e & Hn & He & Hset).
  unfold onDragDown. rewrite Hset, bind_Normal.
  eexists. split; [done|].
  unfold Inv, WellFormed. simpl.
  rewrite (keys_insert_same _ _ _ _ _ _ Hn He).
  split_and!; try done.
  - by apply Forall_insert.
  - intros k' [= <-]. auto.
  - intros e' [j Hj]%list_elem_of_lookup Hd.
    apply list_lookup_insert_Some in Hj as [(_ & [= <-] & _)|[_ Hj]]; [done|].
    assert (Some e' ∈ elems (ordering s)) as Hin by (apply list_elem_of_lookup; eauto).
    specialize (Hflags e' Hin Hd).
    unfold WellFormed in Hwf. rewrite Forall_forall in Hwf.
    apply Hwf, is_entry_inv in Hin as (? & ? & [= <-] & ?). congruence.
Qed.

Lemma Inv_release u s k :
  Inv u s → active (gesture u) = Some k →
  ∃ o', setDraggable k false (ordering s) = Normal o'
        ∧ Inv {| gesture := Idle; rows := rows u |}
            {| ordering := o'; dragging := None |}.
Proof.
  intros (Hwf & Hnd & Hrows & Hact & Hflags & Hdrag) Hk.
  destruct (setDraggable_present (ordering s) k false Hwf (Hact k Hk))
    as (n & e & Hn & He & Hset).
  rewrite Hset. eexists. split; [done|].
  unfold Inv, WellFormed. simpl.
  rewrite (keys_insert_same _ _ _ _ _ _ Hn He).
  split_and!; try done.
  - by apply Forall_insert.
  - intros e' [j Hj]%list_elem_of_lookup Hd. exfalso.
    apply list_lookup_insert_Some in Hj as [(_ & [= <-] & _)|[Hne Hj]]; [done|].
    assert (Some e' ∈ elems (ordering s)) as Hin by (apply list_elem_of_lookup; eauto).
    specialize (Hflags e' Hin Hd). rewrite Hk in Hflags.
    apply Hne. apply (NoDup_lookup _ _ _ (Some k) Hnd); unfold keys.
    + by rewrite list_lookup_fmap, Hn; simpl; rewrite He.
    + by rewrite list_lookup_fmap, Hj; simpl; rewrite Hflags.
Qed.

Lemma Inv_DragEnter u s k j :
  Inv u s → gesture u = Dragging k → j ∈ rows u →
  ∃ s', onDragEnter j s = Normal s' ∧ Inv u s'.
Proof.
  intros HInv Hg Hj.
  pose proof HInv as (Hwf & Hnd & Hrows & Hact & Hflags & Hdrag).
  rewrite Hg in Hdrag, Hact. simpl in Hact.
  unfold onDragEnter. rewrite Hdrag. simpl.
  destruct (k =? 0); simpl; [by exists s|].
  destruct (getOrder_present _ j Hwf (Hrows j Hj)) as (n & _ & -> & _).
  rewrite bind_Normal.
  destruct (getOrder_present _ k Hwf (Hact k eq_refl)) as (p & e & Hget & Hp & He).
  destruct (setOrder_present _ k p (Some e) (Z.of_nat n) Hget Hp) as (o' & -> & Hel & _);
    [lia|].
  rewrite bind_Normal. eexists. split; [done|].
  rewrite <- Hdrag. apply Inv_rearranged; [|done].
  rewrite Hel, insert_at_perm. symmetry. by apply delete_Permutation.
Qed.

Lemma Inv_ListChange u s (items : list Item.t) :
  Inv u s → NoDup (Item.key <$> items) →
  ∃ s', onListChange items s = Normal s'
        ∧ Inv {| gesture := gesture u; rows := Item.key <$> items |} s'.
Proof.
  intros (Hwf & Hnd & Hrows & Hact & Hflags & Hdrag) Hitems.
  unfold onListChange.
  pose proof (reconcile_wf items _ Hwf) as Hrec.
  pose proof (reconcile_WellFormed _ _ _ Hwf Hrec) as Hwf'.
  rewrite Hrec in *. rewrite bind_Normal. eexists. split; [done|].
  fold (unseen (ordering s) items) in *.
  unfold Inv. simpl. rewrite keys_appended. split_and!; try done.
  - by apply unseen_NoDup.
  - intros k. apply unseen_covers.
  - intros k Hk. apply elem_of_app. left. auto.
  - intros e [He|He]%elem_of_app Hd; [auto|].
    apply list_elem_of_fmap in He as (item & [= ->] & _). done.
Qed.

Lemma Inv_step u u' ev s :
  Inv u s → follows u ev = Some u' →
  ∃ s', handle ev s = Normal s' ∧ Inv u' s'.
Proof.
  intros HInv Hf. destruct u as [g rows].
  pose proof HInv as (_ & _ & _ & _ & _ & Hdrag). simpl in Hdrag.
  unfold follows in Hf. simpl in Hf.
  destruct g as [|k|k], ev as [k'|k'|k'|k'|k'|items];
    try discriminate; simpl in Hf; case_decide; simplify_eq; simpl.
  - by apply Inv_DragDown.
  - by apply (Inv_ListChange _ _ _ HInv).
  - destruct (Inv_release _ _ k HInv eq_refl) as (o' & Ho' & HInv').
    unfold onDragUp. rewrite Hdrag. simpl. rewrite Ho', bind_Normal. eauto.
  - unfold onDragStart. eexists. split; [done|].
    destruct HInv as (? & ? & ? & ? & ? & ?). by split_and!.
  - by apply (Inv_ListChange _ _ _ HInv).
  - by eapply Inv_DragEnter.
  - destruct (Inv_release _ _ k HInv eq_refl) as (o' & Ho' & HInv').
    unfold onDragEnd. rewrite Ho', bind_Normal. eauto.
  - by apply (Inv_ListChange _ _ _ HInv).
Qed.

Lemma Inv_run evs : ∀ u u' s,
  Inv u s → protocol u evs = Some u' →
  ∃ s', run evs s = Normal s' ∧ Inv u' s'.
Proof.
  induction evs as [|ev evs IH]; intros u u' s HInv Hp; simpl in *.
  - injection Hp as <-. eauto.
  - destruct (follows u ev) as [u1|] eqn:Hf; [|done]. simpl in Hp.
    destruct (Inv_step _ _ _ _ HInv Hf) as (s1 & -> & HInv1).
    rewrite bind_Normal. eauto.
Qed.

Lemma protocol_app u evs1 evs2 :
  protocol u (evs1 ++ evs2) = protocol u evs1 ≫= λ u1, protocol u1 evs2.
Proof.
  revert u. induction evs1 as [|ev evs1 IH]; intros u; simpl; [done|].
  destruct (follows u ev); simpl; [apply IH|done].
Qed.

Lemma run_app evs1 evs2 s :
  run (evs1 ++ evs2) s = run evs1 s ≫= run evs2.
Proof.
  revert s. induction evs1 as [|ev evs1 IH]; intros s; simpl; [done|].
  destruct (handle ev s); simpl; [apply IH|done].
Qed.

Lemma onDragEnd_total key s :
  WellFormed (ordering s) →
  ∃ s', onDragEnd key s = Normal s' ∧ dragging s' = None
        ∧ keys (ordering s') = keys (ordering s)
        ∧ length (elems (ordering s')) = length (elems (ordering s)).
Proof.
  intros Hwf.
  destruct (setDraggable_keys (ordering s) key false Hwf) as (o' & Ho' & Hk & _ & Hl & _).
  unfold onDragEnd. rewrite Ho', bind_Normal. eexists. by split_and!.
Qed.

(** ** No handler fails *)

Lemma Safe_setDraggable seen s key value d :
  Safe seen s → (d = dragging s ∨ d = None) →
  ∃ o', setDraggable key value (ordering s) = Normal o'
        ∧ Safe seen {| ordering := o'; dragging := d |}.
Proof.
  intros (Hwf & Hseen & Hdrag) Hd.
  destruct (setDraggable_keys (ordering s) key value Hwf) as (o' & Ho' & Hk & Hwf' & _).
  exists o'. split; [done|]. unfold Safe. simpl. rewrite Hk.
  split_and!; [done..|]. intros k ->. destruct Hd as [Hd|?]; [|done]. auto.
Qed.

Lemma Safe_onDragEnter seen s j :
  Safe seen s → j ∈ seen →
  ∃ s', onDragEnter j s = Normal s' ∧ Safe seen s'.
Proof.
  intros HSafe Hj. pose proof HSafe as (Hwf & Hseen & Hdrag).
  unfold onDragEnter. destruct (dragging s) as [d|] eqn:Hd; [|by exists s].
  destruct (truthy (Some d)); [|by exists s].
  destruct (getOrder_present _ j Hwf (Hseen j Hj)) as (n & _ & -> & _).
  rewrite bind_Normal.
  destruct (getOrder_present _ d Hwf (Hdrag d eq_refl)) as (p & e & Hget & Hp & He).
  destruct (setOrder_present _ d p (Some e) (Z.of_nat n) Hget Hp) as (o' & -> & Hel & _);
    [lia|].
  rewrite bind_Normal. eexists. split; [done|].
  assert (elems o' ≡ₚ elems (ordering s)) as Hperm.
  { rewrite Hel, insert_at_perm. symmetry. by apply delete_Permutation. }
  assert (keys o' ≡ₚ keys (ordering s)) as Hkeys.
  { unfold keys. by rewrite Hperm. }
  unfold Safe, WellFormed. simpl. split_and!.
  - by rewrite Hperm.
  - intros k Hk. rewrite Hkeys. auto.
  - intros k [= <-]. rewrite Hkeys. auto.
Qed.

Lemma Safe_onListChange seen s (items : list Item.t) :
  Safe seen s →
  ∃ s', onListChange items s = Normal s'
        ∧ Safe (seen ++ (Item.key <$> items)) s'.
Proof.
  intros (Hwf & Hseen & Hdrag). unfold onListChange.
  pose proof (reconcile_wf items _ Hwf) as Hrec.
  pose proof (reconcile_WellFormed _ _ _ Hwf Hrec) as Hwf'.
  rewrite Hrec in *. rewrite bind_Normal. eexists. split; [done|].
  fold (unseen (ordering s) items) in *.
  unfold Safe. simpl. rewrite keys_appended. split_and!; [done| |].
  - intros k [Hk|Hk]%elem_of_app; [|by apply unseen_covers].
    apply elem_of_app. left. auto.
  - intros k Hk. apply elem_of_app. left. auto.
Qed.

Lemma Safe_step seen seen' ev s :
  Safe seen s → addressed seen ev = Some seen' →
  ∃ s', handle ev s = Normal s' ∧ Safe seen' s'.
Proof.
  intros HSafe Ha.
  destruct ev as [k|k|k|k|k|items]; simpl in *;
    try case_decide; simplify_eq.
  - unfold onDragDown.
    destruct (Safe_setDraggable _ _ k true (dragging s) HSafe) as (o' & -> & ?); eauto.
  - unfold onDragUp. destruct (truthy (dragging s)); simpl; [by exists s|].
    destruct (Safe_setDraggable _ _ k false (dragging s) HSafe) as (o' & -> & ?); eauto.
  - unfold onDragStart. eexists. split; [done|].
    destruct HSafe as (? & Hseen & _). unfold Safe. simpl.
    split_and!; [done..|]. intros ? [= <-]. auto.
  - by apply Safe_onDragEnter.
  - unfold onDragEnd.
    destruct (Safe_setDraggable _ _ k false None HSafe) as (o' & -> & ?); eauto.
  - by apply Safe_onListChange.
Qed.

Lemma Safe_run evs : ∀ seen seen' s,
  Safe seen s → deliverable seen evs = Some seen' →
  ∃ s', run evs s = Normal s' ∧ Safe seen' s'.
Proof.
  induction evs as [|ev evs IH]; intros seen seen' s HSafe Hd; simpl in *.
  - injection Hd as <-. eauto.
  - destruct (addressed seen ev) as [seen1|] eqn:Ha; [|done]. simpl in Hd.
    destruct (Safe_step _ _ _ _ HSafe Ha) as (s1 & -> & HSafe1).
    rewrite bind_Normal. eauto.
Qed.

(** ** Mounting *)

Lemma seeded_array (ids : list Z) :
  keys (array_of ((λ key, entry key) <$> ids)) = Some <$> ids
  ∧ Forall (λ v, is_draggable v = false) ((λ key, entry key) <$> ids)
  ∧ WellFormed (array_of ((λ key, entry key) <$> ids)).
Proof.
  unfold keys, WellFormed. simpl. rewrite <- list_fmap_compose.
  split_and!; [done|apply Forall_fmap; by apply Forall_true..].
Qed.

Lemma initialOrdering_seed persisted (items : list Item.t) :
  initialOrdering persisted items
  = array_of ((λ key, entry key) <$> default (Item.key <$> items) persisted).
Proof.
  destruct persisted as [ids|]; simpl; [done|].
  by rewrite <- list_fmap_compose.
Qed.

(** A freshly mounted section is at rest: the store is well formed, no
    flag is set, no drag is active and every item of the list has an
    entry.  Its keys are distinct when the seed and the list have distinct
    keys. *)
Lemma mount_settled persisted (items : list Item.t) :
  NoDup (default (Item.key <$> items) persisted) →
  NoDup (Item.key <$> items) →
  ∃ s0, mount persisted items = Normal s0
        ∧ WellFormed (ordering s0)
        ∧ NoDup (keys (ordering s0))
        ∧ Forall (λ v, is_draggable v = false) (elems (ordering s0))
        ∧ dragging s0 = None
        ∧ Forall (λ k, Some k ∈ keys (ordering s0)) (Item.key <$> items).
Proof.
  intros Hseed Hitems. unfold mount.
  rewrite initialOrdering_seed.
  destruct (seeded_array (default (Item.key <$> items) persisted))
    as (Hkeys & Hflags & Hwf).
  set (o := array_of _) in *.
  pose proof (reconcile_wf items o Hwf) as Hrec.
  pose proof (reconcile_WellFormed _ _ _ Hwf Hrec) as Hwf'.
  rewrite Hrec in *. rewrite bind_Normal. eexists. split; [done|].
  fold (unseen o items) in *. cbn [ordering dragging]. rewrite keys_appended.
  split_and!; try done.
  - apply unseen_NoDup; [|done]. rewrite Hkeys. by apply (NoDup_fmap_2 _).
  - apply Forall_app. split; [done|].
    apply Forall_fmap. by apply Forall_true.
  - apply Forall_forall. intros k. apply unseen_covers.
Qed.

Lemma mount_Safe persisted (items : list Item.t) :
  ∃ s0, mount persisted items = Normal s0 ∧ Safe (Item.key <$> items) s0.
Proof.
  unfold mount. rewrite initialOrdering_seed.
  destruct (seeded_array (default (Item.key <$> items) persisted)) as (_ & _ & Hwf).
  set (o := array_of _) in *.
  pose proof (reconcile_wf items o Hwf) as Hrec.
  pose proof (reconcile_WellFormed _ _ _ Hwf Hrec) as Hwf'.
  rewrite Hrec in *. rewrite bind_Normal. eexists. split; [done|].
  fold (unseen o items) in *. unfold Safe. cbn [ordering dragging].
  rewrite keys_appended. split_and!; [done| |done].
  intros k. apply unseen_covers.
Qed.

(** From mounting on, whatever the order of the events, no handler
    throws and the store stays well formed: [setOrder] is only ever called
    with the key of an entry and an index of the array. *)
Lemma handlers_never_fail persisted (items : list Item.t) evs seen' :
  deliverable (Item.key <$> items) evs = Some seen' →
  ∃ s0 s, mount persisted items = Normal s0
          ∧ run evs s0 = Normal s
          ∧ WellFormed (ordering s)
          ∧ (∀ k, dragging s = Some k → Some k ∈ keys (ordering s)).
Proof.
  intros Hd. destruct (mount_Safe persisted items) as (s0 & Hmount & HSafe).
  destruct (Safe_run _ _ _ _ HSafe Hd) as (s & Hrun & Hwf & _ & Hdrag).
  by exists s0, s.
Qed.

(** ** A gesture, from a state at rest *)

Lemma gesture_invariant (s0 : State) (rows0 : list Z) (evs1 evs2 : list Event) (u : Ui) :
  WellFormed (ordering s0) →
  NoDup (keys (ordering s0)) →
  Forall (λ v, is_draggable v = false) (elems (ordering s0)) →
  dragging s0 = None →
  Forall (λ k, Some k ∈ keys (ordering s0)) rows0 →
  protocol {| gesture := Idle; rows := rows0 |} (evs1 ++ evs2) = Some u →
  ∃ u1 s1,
    protocol {| gesture := Idle; rows := rows0 |} evs1 = Some u1
    ∧ run evs1 s0 = Normal s1
    ∧ (∀ (i j : nat) e1 e2,
          elems (ordering s1) !! i = Some (Some e1) →
          elems (ordering s1) !! j = Some (Some e2) →
          Ord.draggable e1 = true → Ord.draggable e2 = true → i = j)
    ∧ (∀ e, Some e ∈ elems (ordering s1) → Ord.draggable e = true →
            ∃ k, active (gesture u1) = Some k ∧ Ord.key e = Some k)
    ∧ (gesture u1 = Idle →
       Forall (λ v, is_draggable v = false) (elems (ordering s1)))
    ∧ dragging s1 = match gesture u1 with Dragging k => Some k | _ => None end.
Proof.
  intros Hwf Hnd Hflags Hdrag Hrows Hp.
  rewrite protocol_app in Hp.
  destruct (protocol _ evs1) as [u1|] eqn:Hp1; [|done].
  assert (Inv {| gesture := Idle; rows := rows0 |} s0) as HInv.
  { unfold Inv. simpl. rewrite Forall_forall in Hrows. rewrite Forall_forall in Hflags.
    split_and!; try done. intros e He Hd. specialize (Hflags _ He). simpl in Hflags. congruence. }
  destruct (Inv_run _ _ _ _ HInv Hp1)
    as (s1 & Hrun & Hwf1 & Hnd1 & _ & _ & Hflags1 & Hdrag1).
  assert (∀ e, Some e ∈ elems (ordering s1) → Ord.draggable e = true →
               ∃ k, active (gesture u1) = Some k ∧ Ord.key e = Some k) as Hact1.
  { intros e He Hd. specialize (Hflags1 e He Hd).
    unfold WellFormed in Hwf1. rewrite Forall_forall in Hwf1.
    apply Hwf1, is_entry_inv in He as (? & k & [= <-] & Hk).
    exists k. split; congruence. }
  exists u1, s1. split_and!; try done.
  - intros i j e1 e2 Hi Hj Hd1 Hd2.
    assert (Some e1 ∈ elems (ordering s1)) as He1 by (apply list_elem_of_lookup; eauto).
    assert (Some e2 ∈ elems (ordering s1)) as He2 by (apply list_elem_of_lookup; eauto).
    apply Hflags1 in He1, He2; [|done..].
    apply (NoDup_lookup _ _ _ (active (gesture u1)) Hnd1); unfold keys.
    + by rewrite list_lookup_fmap, Hi; simpl; rewrite He1.
    + by rewrite list_lookup_fmap, Hj; simpl; rewrite He2.
  - intros Hidle. apply Forall_forall. intros [e|] He; [|done]. simpl.
    destruct (Ord.draggable e) eqn:Hd; [|done].
    destruct (Hact1 e He Hd) as (k & Hk & _). by rewrite Hidle in Hk.
Qed.

(** ** A guard as the code writes it *)

(** [if (dragging)] is also false for the key [0]: while the item with
    key [0] is dragged, entering a row moves nothing. *)
Lemma onDragEnter_key_zero (key : Z) (s : State) :
  dragging s = Some 0 → onDragEnter key s = Normal s.
Proof. intros Hd. unfold onDragEnter. by rewrite Hd. Qed.

(** * Main results *)

(** ** The order store *)

(** C9. Initialization seeding: a persisted identifier sequence, when
    present (even if empty), seeds the entries in that order; otherwise
    the keys of the item list do, in arrival order.  Every seeded entry
    has [draggable = false]. *)
Theorem initialOrdering_seeds :
  ∀ (persisted : option (list Z)) (items : list Item.t),
    let seed := match persisted with
                | Some ids => ids
                | None => Item.key <$> items
                end in
    initialOrdering persisted items
    = array_of ((λ id, Some {| Ord.key := Some id; Ord.draggable := false |}) <$> seed)
    ∧ keys (initialOrdering persisted items) = Some <$> seed
    ∧ Forall (λ v, is_draggable v = false) (elems (initialOrdering persisted items))
    ∧ WellFormed (initialOrdering persisted items).
Proof.
  intros persisted items seed.
  rewrite initialOrdering_seed.
  replace (default (Item.key <$> items) persisted) with seed
    by (by destruct persisted).
  destruct (seeded_array seed) as (Hkeys & Hflags & Hwf).
  by split_and!.
Qed.

(** C1. Reconcile only appends: the existing entries stay, unchanged and
    in their order, as a prefix; one entry [{ key, draggable: false }] is
    appended for each item of the list whose key is not in the store, in
    the order of the list; nothing is removed.  Items have distinct keys:
    when the keys of the store and of the list are distinct, so are the
    keys of the result. *)
Theorem reconcile_only_appends :
  ∀ (items : list Item.t) (o : Ordering),
    WellFormed o →
    ∃ o', reconcile items o = Normal o'
          ∧ elems o'
            = elems o
              ++ ((λ item, Some {| Ord.key := Some (Item.key item);
                                   Ord.draggable := false |}) <$>
                    unseen o items)
          ∧ keys o' = keys o ++ (Some <$> (Item.key <$> unseen o items))
          ∧ unseen o items `sublist_of` items
          ∧ (∀ item, item ∈ unseen o items
                     ↔ item ∈ items ∧ Some (Item.key item) ∉ keys o)
          ∧ (NoDup (keys o) → NoDup (Item.key <$> items) → NoDup (keys o')).
Proof.
  intros items o Hwf. eexists. split; [by apply reconcile_wf|].
  fold (unseen o items). rewrite keys_appended. split_and!; try done.
  - apply filter_sublist.
  - apply unseen_spec.
  - apply unseen_NoDup.
Qed.

Lemma reconcile_only_appends_witness :
  ∃ o', reconcile [mkItem 3; mkItem 1; mkItem 2; mkItem 5]
          (initialOrdering None [mkItem 3; mkItem 1; mkItem 2]) = Normal o'
        ∧ elems o'
          = elems (initialOrdering None [mkItem 3; mkItem 1; mkItem 2])
            ++ ((λ item, Some {| Ord.key := Some (Item.key item);
                                 Ord.draggable := false |}) <$>
                  unseen (initialOrdering None [mkItem 3; mkItem 1; mkItem 2])
                    [mkItem 3; mkItem 1; mkItem 2; mkItem 5])
        ∧ keys o'
          = keys (initialOrdering None [mkItem 3; mkItem 1; mkItem 2])
            ++ (Some <$>
                  (Item.key <$>
                     unseen (initialOrdering None [mkItem 3; mkItem 1; mkItem 2])
                       [mkItem 3; mkItem 1; mkItem 2; mkItem 5]))
        ∧ unseen (initialOrdering None [mkItem 3; mkItem 1; mkItem 2])
            [mkItem 3; mkItem 1; mkItem 2; mkItem 5]
          `sublist_of` [mkItem 3; mkItem 1; mkItem 2; mkItem 5]
        ∧ (∀ item,
              item ∈ unseen (initialOrdering None [mkItem 3; mkItem 1; mkItem 2])
                       [mkItem 3; mkItem 1; mkItem 2; mkItem 5]
              ↔ item ∈ [mkItem 3; mkItem 1; mkItem 2; mkItem 5]
                ∧ Some (Item.key item)
                  ∉ keys (initialOrdering None [mkItem 3; mkItem 1; mkItem 2]))
        ∧ (NoDup (keys (initialOrdering None [mkItem 3; mkItem 1; mkItem 2])) →
           NoDup (Item.key <$> [mkItem 3; mkItem 1; mkItem 2; mkItem 5]) →
           NoDup (keys o')).
Proof.
  apply (reconcile_only_appends
           [mkItem 3; mkItem 1; mkItem 2; mkItem 5]
           (initialOrdering None [mkItem 3; mkItem 1; mkItem 2])).
  unfold WellFormed. simpl. repeat constructor.
Defined.

(** C2. Reconcile is idempotent: running it a second time with the same
    list gives back the array of the first run. *)
Theorem reconcile_idempotent :
  ∀ (items : list Item.t) (o : Ordering),
    WellFormed o →
    ∃ o', reconcile items o = Normal o'
          ∧ reconcile items o' = Normal o'
          ∧ (reconcile items o ≫= reconcile items) = reconcile items o.
Proof.
  intros items o Hwf.
  pose proof (reconcile_wf items o Hwf) as Ho'.
  eexists. split; [exact Ho'|]. rewrite Ho', bind_Normal.
  by rewrite (reconcile_twice _ _ _ Ho').
Qed.

Lemma reconcile_idempotent_witness :
  ∃ o', reconcile [mkItem 3; mkItem 1; mkItem 2; mkItem 5]
          (initialOrdering (Some [2; 7]) []) = Normal o'
        ∧ reconcile [mkItem 3; mkItem 1; mkItem 2; mkItem 5] o' = Normal o'
        ∧ (reconcile [mkItem 3; mkItem 1; mkItem 2; mkItem 5]
             (initialOrdering (Some [2; 7]) [])
           ≫= reconcile [mkItem 3; mkItem 1; mkItem 2; mkItem 5])
          = reconcile [mkItem 3; mkItem 1; mkItem 2; mkItem 5]
              (initialOrdering (Some [2; 7]) []).
Proof.
  apply (reconcile_idempotent
           [mkItem 3; mkItem 1; mkItem 2; mkItem 5]
           (initialOrdering (Some [2; 7]) [])).
  unfold WellFormed. simpl. repeat constructor.
Defined.

(** C3. Move is a single-element reinsertion: when the store holds [id]
    at position [p] and [t] is a position of the sequence, [setOrder id t]
    takes the entry out of [p] and puts it back at [t]; the other entries
    keep their relative order (removing the moved entry from the result
    and from the original leaves the same sequence); with [t = p] nothing
    changes.  Seeding [3,1,2], reconciling with [3,1,2,5] and moving [2]
    to [0] gives [3,1,2,5] and then [2,3,1,5]. *)
Theorem setOrder_single_move :
  (∀ (o : Ordering) (id p t : Z),
      getOrder o id = Normal p → 0 ≤ p →
      0 ≤ t < Z.of_nat (length (elems o)) →
      ∃ o' e,
        setOrder id t o = Normal o'
        ∧ elems o !! Z.to_nat p = Some (Some e) ∧ Ord.key e = Some id
        ∧ elems o'
          = insert_at (Z.to_nat t) (Some e) (delete (Z.to_nat p) (elems o))
        ∧ elems o' !! Z.to_nat t = Some (Some e)
        ∧ delete (Z.to_nat t) (elems o') = delete (Z.to_nat p) (elems o)
        ∧ length (elems o') = length (elems o)
        ∧ (t = p → o' = o))
  ∧ (∃ o1 o2,
        keys (initialOrdering None (mkItem <$> [3; 1; 2])) = Some <$> [3; 1; 2]
        ∧ reconcile (mkItem <$> [3; 1; 2; 5])
            (initialOrdering None (mkItem <$> [3; 1; 2])) = Normal o1
        ∧ keys o1 = Some <$> [3; 1; 2; 5]
        ∧ setOrder 2 0 o1 = Normal o2
        ∧ keys o2 = Some <$> [2; 3; 1; 5]).
Proof.
  split.
  - intros o id p t Hget Hp Ht.
    destruct (getOrder_hit _ _ _ Hget Hp) as (n & e & -> & Hn & He).
    destruct (setOrder_present o id n (Some e) t Hget Hn) as (o' & Ho' & Hel & Hsame);
      [lia|].
    apply lookup_lt_Some in Hn as Hlen.
    assert (Z.to_nat t ≤ length (delete n (elems o)))%nat as Hle.
    { rewrite length_delete by eauto. lia. }
    exists o', e. rewrite Nat2Z.id, Hel.
    split_and!; try done.
    + by apply insert_at_lookup.
    + by apply insert_at_delete.
    + rewrite insert_at_length, length_delete by eauto. lia.
  - eexists _, _. split_and!; reflexivity.
Qed.

Lemma setOrder_single_move_witness :
  ∃ o' e,
    setOrder 2 0 (initialOrdering (Some [3; 1; 2; 5]) []) = Normal o'
    ∧ elems (initialOrdering (Some [3; 1; 2; 5]) []) !! Z.to_nat 2 = Some (Some e)
    ∧ Ord.key e = Some 2
    ∧ elems o'
      = insert_at (Z.to_nat 0) (Some e)
          (delete (Z.to_nat 2) (elems (initialOrdering (Some [3; 1; 2; 5]) [])))
    ∧ elems o' !! Z.to_nat 0 = Some (Some e)
    ∧ delete (Z.to_nat 0) (elems o')
      = delete (Z.to_nat 2) (elems (initialOrdering (Some [3; 1; 2; 5]) []))
    ∧ length (elems o') = length (elems (initialOrdering (Some [3; 1; 2; 5]) []))
    ∧ (0 = 2 → o' = initialOrdering (Some [3; 1; 2; 5]) []).
Proof.
  apply (proj1 setOrder_single_move (initialOrdering (Some [3; 1; 2; 5]) []) 2 2 0).
  - reflexivity.
  - lia.
  - simpl. lia.
Defined.

(** C4, as the code has it.  Move preserves the identifiers when the
    identifier is in the store and the target position is not negative:
    the entries after the call are a rearrangement of the entries before
    it, so the identifiers and the length are the same. *)
Theorem setOrder_preserves_identifiers :
  ∀ (o : Ordering) (id p t : Z),
    getOrder o id = Normal p → 0 ≤ p → 0 ≤ t →
    ∃ o', setOrder id t o = Normal o'
          ∧ elems o' ≡ₚ elems o
          ∧ keys o' ≡ₚ keys o
          ∧ (∀ k, k ∈ keys o' ↔ k ∈ keys o)
          ∧ length (elems o') = length (elems o).
Proof.
  intros o id p t Hget Hp Ht.
  destruct (getOrder_hit _ _ _ Hget Hp) as (n & e & -> & Hn & He).
  destruct (setOrder_present o id n (Some e) t Hget Hn Ht) as (o' & Ho' & Hel & _).
  assert (elems o' ≡ₚ elems o) as Hperm.
  { rewrite Hel, insert_at_perm. symmetry. by apply delete_Permutation. }
  assert (keys o' ≡ₚ keys o) as Hkeys.
  { unfold keys. by rewrite Hperm. }
  exists o'. split_and!; try done.
  - intros k. by rewrite Hkeys.
  - by rewrite Hperm.
Qed.

Lemma setOrder_preserves_identifiers_witness :
  ∃ o', setOrder 1 7 (initialOrdering (Some [3; 1; 2; 5]) []) = Normal o'
        ∧ elems o' ≡ₚ elems (initialOrdering (Some [3; 1; 2; 5]) [])
        ∧ keys o' ≡ₚ keys (initialOrdering (Some [3; 1; 2; 5]) [])
        ∧ (∀ k, k ∈ keys o' ↔ k ∈ keys (initialOrdering (Some [3; 1; 2; 5]) []))
        ∧ length (elems o') = length (elems (initialOrdering (Some [3; 1; 2; 5]) [])).
Proof.
  apply (setOrder_preserves_identifiers
           (initialOrdering (Some [3; 1; 2; 5]) []) 1 1 7).
  - reflexivity.
  - lia.
  - lia.
Defined.

(** C4 as stated fails.  With an identifier that is not in the store,
    [oldIndex] is [-1]: the array literal repeats entries and takes in
    [ordering[-1]], here [undefined]; three entries become six slots.  With
    a negative target, [slice] counts from the end: identifier [2] occurs
    twice afterwards and the sequence has four entries. *)
Lemma setOrder_unknown_identifier_grows :
  WellFormed (initialOrdering (Some [1; 2; 3]) [])
  ∧ length (elems (initialOrdering (Some [1; 2; 3]) [])) = 3%nat
  ∧ getOrder (initialOrdering (Some [1; 2; 3]) []) 9 = Normal (-1)
  ∧ (∃ o', setOrder 9 0 (initialOrdering (Some [1; 2; 3]) []) = Normal o'
           ∧ elems o' = [entry 1; entry 2; entry 1; None; entry 2; entry 3]
           ∧ length (elems o') = 6%nat)
  ∧ (∃ o', setOrder 2 (-1) (initialOrdering (Some [1; 2; 3]) []) = Normal o'
           ∧ elems o' = [entry 1; entry 2; entry 2; entry 3]
           ∧ length (elems o') = 4%nat).
Proof.
  split_and!; try reflexivity.
  - unfold WellFormed. simpl. repeat constructor.
  - eexists. split_and!; reflexivity.
  - eexists. split_and!; reflexivity.
Qed.

(** ** Filtering *)

(** C8. The uniform-completion signal is true exactly when all the
    filtered items share the same completion flag; on the empty list it
    is true. *)
Theorem allStatus_uniform :
  ∀ items : list Item.t,
    (allStatus items = true ↔ uniform_status items)
    ∧ allStatus [] = true.
Proof.
  intros items. split; [|done].
  unfold allStatus, Js.reduce, uniform_status.
  destruct items as [|x l]; simpl.
  - split; [|done]. intros _ x y Hx. by apply elem_of_nil in Hx.
  - rewrite status_fold_some, forallb_forall. split.
    + intros Hall.
      assert (∀ y, y ∈ x :: l → Item.status y = Item.status x) as Hx.
      { intros y [->|Hy]%elem_of_cons; [done|].
        symmetry. apply eqb_prop, Hall. by apply list_elem_of_In. }
      intros y z Hy Hz. by rewrite (Hx y), (Hx z).
    + intros Hsame y Hy. apply list_elem_of_In in Hy.
      rewrite (Hsame x y); [apply eqb_reflx|by left|by right].
Qed.




(** ** The drag session *)

(** C10. A drag-enter received while no drag is active leaves the state,
    and so the order, as it is; a drag-enter that changes the order was
    received while a drag was active. *)
Theorem onDragEnter_idle :
  ∀ (s : State) (key : Z),
    (dragging s = None → onDragEnter key s = Normal s)
    ∧ (∀ s', onDragEnter key s = Normal s' → ordering s' ≠ ordering s →
             ∃ k, dragging s = Some k).
Proof.
  intros s key. split.
  - intros Hd. unfold onDragEnter. by rewrite Hd.
  - intros s' Hs' Hne. destruct (dragging s) as [k|] eqn:Hd; [eauto|].
    unfold onDragEnter in Hs'. rewrite Hd in Hs'. by injection Hs' as <-.
Qed.

Lemma onDragEnter_idle_witness :
  onDragEnter 3 {| ordering := initialOrdering (Some [3; 1; 2]) []; dragging := None |}
  = Normal {| ordering := initialOrdering (Some [3; 1; 2]) []; dragging := None |}
  ∧ ∃ k, dragging {| ordering := initialOrdering (Some [3; 1; 2]) [];
                     dragging := Some 2 |} = Some k.
Proof.
  split.
  - apply (proj1 (onDragEnter_idle
                    {| ordering := initialOrdering (Some [3; 1; 2]) []; dragging := None |}
                    3)).
    reflexivity.
  - apply (proj2 (onDragEnter_idle
                    {| ordering := initialOrdering (Some [3; 1; 2]) [];
                       dragging := Some 2 |}
                    3)
             {| ordering := array_of [entry 2; entry 3; entry 1]; dragging := Some 2 |}).
    + reflexivity.
    + simpl. discriminate.
Defined.

(** C7. Lookups of an identifier that is not in the store do not fail:
    [getOrder] answers [-1], and [setDraggable] returns an array with the
    same sequence of entries.  A drag session resolves on drag end
    whatever happened to the item list: from a well-formed store, after a
    new item list (with or without the dragged item), the drag-end handler
    of any row completes with no active drag and the same identifiers; and
    the same holds at the end of any sequence of events delivered to the
    section while the item is dragged. *)
Theorem unknown_identifier_is_harmless :
  (∀ (o : Ordering) (id : Z) (value : bool),
      WellFormed o → Some id ∉ keys o →
      getOrder o id = Normal (-1)
      ∧ ∃ o', setDraggable id value o = Normal o' ∧ elems o' = elems o)
  ∧ (∀ (o : Ordering) (d : option Z) (items : list Item.t) (key : Z),
        WellFormed o →
        ∃ s1 s2,
          onListChange items {| ordering := o; dragging := d |} = Normal s1
          ∧ onDragEnd key s1 = Normal s2
          ∧ dragging s2 = None
          ∧ keys (ordering s2) = keys (ordering s1)
          ∧ length (elems (ordering s2)) = length (elems (ordering s1)))
  ∧ (∀ (o : Ordering) (k : Z) (seen : list Z) (evs : list Event)
       (seen' : list Z) (key : Z),
        WellFormed o → Some k ∈ keys o →
        Forall (λ j, Some j ∈ keys o) seen →
        deliverable seen evs = Some seen' →
        ∃ s', run (evs ++ [DragEnd key]) {| ordering := o; dragging := Some k |}
              = Normal s'
              ∧ dragging s' = None
              ∧ WellFormed (ordering s')).
Proof.
  split_and!.
  - intros o id value Hwf Hnot. split.
    + by apply getOrder_absent.
    + rewrite (setDraggable_absent o id value Hwf Hnot). eauto.
  - intros o d items key Hwf. unfold onListChange. simpl.
    pose proof (reconcile_wf items o Hwf) as Hrec.
    pose proof (reconcile_WellFormed _ _ _ Hwf Hrec) as Hwf'.
    rewrite Hrec in *. rewrite bind_Normal.
    edestruct (onDragEnd_total key) as (s2 & Hs2 & ?); [|eauto].
    done.
  - intros o k seen evs seen' key Hwf Hk Hseen Hd.
    assert (Safe seen {| ordering := o; dragging := Some k |}) as HSafe.
    { rewrite Forall_forall in Hseen. unfold Safe. simpl.
      split_and!; [done..|]. by intros ? [= <-]. }
    destruct (Safe_run _ _ _ _ HSafe Hd) as (s1 & Hrun & HSafe1).
    destruct (Safe_setDraggable _ _ key false None HSafe1) as (o' & Ho' & (Hwf' & _));
      [by right|].
    rewrite run_app, Hrun, bind_Normal. simpl. unfold onDragEnd.
    rewrite Ho', !bind_Normal. eauto.
Qed.

Lemma unknown_identifier_is_harmless_witness :
  (getOrder (initialOrdering (Some [3; 1; 2]) []) 9 = Normal (-1)
   ∧ ∃ o', setDraggable 9 true (initialOrdering (Some [3; 1; 2]) []) = Normal o'
           ∧ elems o' = elems (initialOrdering (Some [3; 1; 2]) []))
  ∧ (∃ s1 s2,
        onListChange [mkItem 3; mkItem 1]
          {| ordering := initialOrdering (Some [3; 1; 2]) []; dragging := Some 2 |}
        = Normal s1
        ∧ onDragEnd 2 s1 = Normal s2
        ∧ dragging s2 = None
        ∧ keys (ordering s2) = keys (ordering s1)
        ∧ length (elems (ordering s2)) = length (elems (ordering s1)))
  ∧ (∃ s', run ([ListChange [mkItem 3; mkItem 1; mkItem 7]; DragEnter 7; DragEnter 3]
                ++ [DragEnd 2])
             {| ordering := initialOrdering (Some [3; 1; 2]) []; dragging := Some 2 |}
           = Normal s'
           ∧ dragging s' = None
           ∧ WellFormed (ordering s')).
Proof.
  split; [|split].
  - apply (proj1 unknown_identifier_is_harmless
             (initialOrdering (Some [3; 1; 2]) []) 9 true).
    + unfold WellFormed. simpl. repeat constructor.
    + apply (bool_decide_unpack _). vm_compute. exact I.
  - apply (proj1 (proj2 unknown_identifier_is_harmless)
             (initialOrdering (Some [3; 1; 2]) []) (Some 2) [mkItem 3; mkItem 1] 2).
    unfold WellFormed. simpl. repeat constructor.
  - apply (proj2 (proj2 unknown_identifier_is_harmless)
             (initialOrdering (Some [3; 1; 2]) []) 2 [3; 1; 2]
             [ListChange [mkItem 3; mkItem 1; mkItem 7]; DragEnter 7; DragEnter 3]
             [3; 1; 2; 3; 1; 7] 2).
    + unfold WellFormed. simpl. repeat constructor.
    + apply (bool_decide_unpack _). vm_compute. exact I.
    + apply (bool_decide_unpack _). vm_compute. exact I.
    + vm_compute. reflexivity.
Defined.

(** C5, as the code has it.  Take a section mounted on distinct
    identifiers and any sequence of events that follows the order of a
    gesture: a row is pressed only when no other gesture is in progress,
    and a drag ends on the row that started it.  Then, after every prefix
    of the sequence: no handler has failed; at most one entry has
    [draggable = true]; such an entry is the one of the row being pressed
    or dragged; when no gesture is in progress every flag is [false], so
    the flag is reset when the drag ends; and [dragging] holds the dragged
    row's key exactly while a drag lasts. *)
Theorem drag_session_single_draggable :
  ∀ (persisted : option (list Z)) (items : list Item.t)
    (evs1 evs2 : list Event) (u : Ui),
    NoDup (default (Item.key <$> items) persisted) →
    NoDup (Item.key <$> items) →
    protocol {| gesture := Idle; rows := Item.key <$> items |} (evs1 ++ evs2)
    = Some u →
    ∃ s0 u1 s1,
      mount persisted items = Normal s0
      ∧ protocol {| gesture := Idle; rows := Item.key <$> items |} evs1 = Some u1
      ∧ run evs1 s0 = Normal s1
      ∧ (∀ (i j : nat) e1 e2,
            elems (ordering s1) !! i = Some (Some e1) →
            elems (ordering s1) !! j = Some (Some e2) →
            Ord.draggable e1 = true → Ord.draggable e2 = true → i = j)
      ∧ (∀ e, Some e ∈ elems (ordering s1) → Ord.draggable e = true →
              ∃ k, active (gesture u1) = Some k ∧ Ord.key e = Some k)
      ∧ (gesture u1 = Idle →
         Forall (λ v, is_draggable v = false) (elems (ordering s1)))
      ∧ dragging s1 = match gesture u1 with Dragging k => Some k | _ => None end.
Proof.
  intros persisted items evs1 evs2 u Hseed Hitems Hp.
  destruct (mount_settled persisted items Hseed Hitems)
    as (s0 & Hmount & Hwf & Hnd & Hflags & Hdrag & Hrows).
  destruct (gesture_invariant s0 _ evs1 evs2 u Hwf Hnd Hflags Hdrag Hrows Hp)
    as (u1 & s1 & H).
  by exists s0, u1, s1.
Qed.

Lemma drag_session_single_draggable_witness :
  ∃ s0 u1 s1,
    mount (Some [3; 1; 2]) (mkItem <$> [3; 1; 2; 5]) = Normal s0
    ∧ protocol {| gesture := Idle; rows := Item.key <$> (mkItem <$> [3; 1; 2; 5]) |}
        [DragDown 2; DragStart 2; DragEnter 3] = Some u1
    ∧ run [DragDown 2; DragStart 2; DragEnter 3] s0 = Normal s1
    ∧ (∀ (i j : nat) e1 e2,
          elems (ordering s1) !! i = Some (Some e1) →
          elems (ordering s1) !! j = Some (Some e2) →
          Ord.draggable e1 = true → Ord.draggable e2 = true → i = j)
    ∧ (∀ e, Some e ∈ elems (ordering s1) → Ord.draggable e = true →
            ∃ k, active (gesture u1) = Some k ∧ Ord.key e = Some k)
    ∧ (gesture u1 = Idle →
       Forall (λ v, is_draggable v = false) (elems (ordering s1)))
    ∧ dragging s1 = match gesture u1 with Dragging k => Some k | _ => None end.
Proof.
  apply (drag_session_single_draggable
           (Some [3; 1; 2]) (mkItem <$> [3; 1; 2; 5])
           [DragDown 2; DragStart 2; DragEnter 3]
           [DragEnd 2; ListChange [mkItem 1]; DragDown 1; DragUp 1]
           {| gesture := Idle; rows := [1] |}).
  - apply (bool_decide_unpack _). vm_compute. exact I.
  - apply (bool_decide_unpack _). vm_compute. exact I.
  - vm_compute. reflexivity.
Defined.

(** C5 as stated fails: nothing resets the flag of a row when another
    row is pressed and starts a drag.  After the handle of row 1 is
    pressed and its drag starts, pressing the handle of row 2 and starting
    its drag leaves both entries with [draggable = true], while the active
    drag is row 2. *)
Lemma second_drag_leaves_two_draggable :
  ∃ s0,
    mount (Some [1; 2]) (mkItem <$> [1; 2]) = Normal s0
    ∧ run [DragDown 1; DragStart 1; DragDown 2; DragStart 2] s0
      = Normal
          {| ordering :=
               array_of [ Some {| Ord.key := Some 1; Ord.draggable := true |};
                          Some {| Ord.key := Some 2; Ord.draggable := true |} ];
             dragging := Some 2 |}.
Proof. eexists. split; reflexivity. Qed.

(** * Further properties of the components *)

(** ** Helpers *)

Lemma map_pure {A B} (f : A → Completion B) (g : A → B) l :
  (∀ x, x ∈ l → f x = Normal (g x)) → Arr.map f l = Normal (g <$> l).
Proof.
  induction l as [|x l IH]; intros Hf; simpl; [done|].
  rewrite Hf by left. simpl.
  by rewrite IH by (intros; apply Hf; by right).
Qed.

Lemma map_TypeError {A B} (f : A → Completion B) l :
  Arr.map f l = TypeError ↔ ∃ x, x ∈ l ∧ f x = TypeError.
Proof.
  induction l as [|x l IH]; simpl.
  - split; [done|]. by intros (x & Hx%elem_of_nil & _).
  - destruct (f x) as [y|] eqn:Hfx; simpl.
    + destruct (Arr.map f l) as [ys|] eqn:Hm; simpl.
      * split; [done|]. intros (z & [->|Hz]%elem_of_cons & Hfz); [congruence|].
        destruct IH as [_ IH]. by discriminate IH; eauto.
      * split; [|done]. intros _. destruct IH as [IH _].
        destruct IH as (z & Hz & Hfz); [done|]. exists z. split; [by right|done].
    + split; [|done]. intros _. exists x. split; [by left|done].
Qed.

Lemma WellFormed_entries o :
  WellFormed o →
  ∃ (es : list Ord.t) (ids : list Z),
    elems o = Some <$> es ∧ Ord.key <$> es = Some <$> ids ∧ keys o = Some <$> ids.
Proof.
  unfold WellFormed, keys. induction 1 as [|v l Hv _ (es & ids & -> & Hes & Hks)].
  - by exists [], [].
  - apply is_entry_inv in Hv as (e & k & -> & Hk).
    exists (e :: es), (k :: ids). rewrite !fmap_cons, Hes. simpl.
    by rewrite Hk, Hks.
Qed.

Lemma unseen_keys o o' (items : list Item.t) :
  keys o = keys o' → unseen o items = unseen o' items.
Proof. unfold unseen. by intros ->. Qed.

Lemma unseen_item_keys o (ids : list Z) (items : list Item.t) :
  keys o = Some <$> ids →
  Item.key <$> unseen o items
  = List.filter (λ k, bool_decide (k ∉ ids)) (Item.key <$> items).
Proof.
  intros Hk. unfold unseen. rewrite Hk.
  induction items as [|x l IH]; [done|].
  rewrite fmap_cons. cbn [List.filter].
  rewrite (bool_decide_ext (Some (Item.key x) ∉ Some <$> ids) (Item.key x ∉ ids))
    by (by rewrite (list_elem_of_fmap_inj Some)).
  destruct (bool_decide (Item.key x ∉ ids)); [rewrite fmap_cons|]; by rewrite IH.
Qed.

Lemma unseen_nil o (items : list Item.t) :
  (∀ item, item ∈ items → Some (Item.key item) ∈ keys o) → unseen o items = [].
Proof.
  intros Hin. unfold unseen.
  induction items as [|x l IH]; simpl; [done|].
  rewrite bool_decide_eq_false_2 by (intros Hn; apply Hn, Hin; by left).
  apply IH. intros item Hitem. apply Hin. by right.
Qed.

(** ** Persistence and mounting *)

(** X1. The value handed to the persistence bridge is the identifier
    sequence of the store, in store order and with repetitions kept;
    computing it throws exactly when a slot of the array is [undefined]. *)
Theorem persistedKeys_spec :
  ∀ o : Ordering,
    (persistedKeys o = TypeError ↔ None ∈ elems o)
    ∧ (None ∉ elems o → persistedKeys o = Normal (keys o)).
Proof.
  intros o. unfold persistedKeys. split.
  - rewrite map_TypeError. split.
    + by intros ([e|] & Hin & Hf).
    + intros Hin. by exists None.
  - intros Hno. apply map_pure. intros [e|] Hin; [done|by destruct Hno].
Qed.

Lemma persistedKeys_spec_witness :
  persistedKeys (initialOrdering (Some [5; 2; 9]) []) = Normal (keys (initialOrdering (Some [5; 2; 9]) [])).
Proof.
  apply (proj2 (persistedKeys_spec (initialOrdering (Some [5; 2; 9]) []))).
  apply (bool_decide_unpack _). vm_compute. exact I.
Defined.

Lemma mount_eq persisted (items : list Item.t) :
  mount persisted items
  = Normal
      {| ordering :=
           array_of
             (elems (initialOrdering persisted items)
              ++ ((λ item, entry (Item.key item)) <$>
                    unseen (initialOrdering persisted items) items));
         dragging := None |}.
Proof.
  unfold mount.
  assert (WellFormed (initialOrdering persisted items)) as Hwf.
  { rewrite initialOrdering_seed. apply seeded_array. }
  by rewrite (reconcile_wf items _ Hwf).
Qed.

Lemma mount_flags persisted (items : list Item.t) :
  Forall (λ v, is_draggable v = false)
    (elems (initialOrdering persisted items)
     ++ ((λ item, entry (Item.key item)) <$>
           unseen (initialOrdering persisted items) items)).
Proof.
  apply Forall_app. split.
  - rewrite initialOrdering_seed. apply seeded_array.
  - apply Forall_fmap. by apply Forall_true.
Qed.

Lemma filter_nothing {A} (f : A → bool) l :
  (∀ x, x ∈ l → f x = false) → List.filter f l = [].
Proof.
  induction l as [|x l IH]; intros Hf; simpl; [done|].
  rewrite Hf by left. apply IH. intros y Hy. apply Hf. by right.
Qed.

(** X2. Mounting never fails and leaves no drag state.  With a persisted
    sequence the store holds that sequence first, then the keys of the
    items it does not contain, in list order; without one it holds the
    keys of the items in their natural order. *)
Theorem mount_shape :
  ∀ (persisted : option (list Z)) (items : list Item.t),
    ∃ s0, mount persisted items = Normal s0
          ∧ dragging s0 = None
          ∧ Forall (λ v, is_draggable v = false) (elems (ordering s0))
          ∧ WellFormed (ordering s0)
          ∧ keys (ordering s0)
            = match persisted with
              | Some ids =>
                  (Some <$> ids)
                  ++ (Some <$> List.filter (λ k, bool_decide (k ∉ ids))
                                 (Item.key <$> items))
              | None => Some <$> (Item.key <$> items)
              end.
Proof.
  intros persisted items. rewrite mount_eq. eexists. split; [done|].
  cbn [ordering dragging]. split_and!; [done|apply mount_flags| |].
  - destruct (mount_Safe persisted items) as (s0 & Hm & Hwf & _).
    rewrite mount_eq in Hm. by injection Hm as <-.
  - rewrite keys_appended.
    pose proof (initialOrdering_seed persisted items) as Hseed.
    destruct (seeded_array (default (Item.key <$> items) persisted)) as (Hkeys & _).
    rewrite <- Hseed in Hkeys.
    rewrite (unseen_item_keys _ _ _ Hkeys), Hkeys.
    destruct persisted as [ids|]; simpl; [done|].
    rewrite filter_nothing, app_nil_r; [done|].
    intros k Hk. by apply bool_decide_eq_false_2; intros Hn.
Qed.

(** X3. Persisting and mounting again restores the order: from a
    well-formed store the persisted value is a sequence of identifiers;
    a section mounted on it holds the same identifiers in the same order
    (those of items that are gone included), followed by the items the
    store did not know; every [draggable] flag is [false] again. *)
Theorem reload_restores_order :
  ∀ (o : Ordering) (items : list Item.t),
    WellFormed o →
    ∃ ids s0,
      persistedKeys o = Normal (Some <$> ids)
      ∧ mount (Some ids) items = Normal s0
      ∧ keys (ordering s0) = keys o ++ (Some <$> (Item.key <$> unseen o items))
      ∧ Forall (λ v, is_draggable v = false) (elems (ordering s0))
      ∧ dragging s0 = None.
Proof.
  intros o items Hwf.
  destruct (WellFormed_entries o Hwf) as (es & ids & Hel & Hes & Hks).
  exists ids. rewrite mount_eq. eexists. split_and!; [|done| | |done].
  - rewrite <- Hks. unfold persistedKeys. apply map_pure.
    intros v Hv. rewrite Hel in Hv. by apply list_elem_of_fmap in Hv as (e & -> & _).
  - cbn [ordering]. rewrite keys_appended.
    destruct (seeded_array ids) as (Hkeys & _).
    assert (keys (initialOrdering (Some ids) items) = keys o) as Heq
      by (by rewrite Hks).
    by rewrite (unseen_keys _ _ _ Heq), Heq.
  - apply mount_flags.
Qed.

Lemma reload_restores_order_witness :
  ∃ ids s0,
    persistedKeys (array_of [ Some {| Ord.key := Some 5; Ord.draggable := true |};
                              Some {| Ord.key := Some 2; Ord.draggable := false |} ])
    = Normal (Some <$> ids)
    ∧ mount (Some ids) [mkItem 2; mkItem 7] = Normal s0
    ∧ keys (ordering s0)
      = keys (array_of [ Some {| Ord.key := Some 5; Ord.draggable := true |};
                         Some {| Ord.key := Some 2; Ord.draggable := false |} ])
        ++ (Some <$>
              (Item.key <$>
                 unseen (array_of [ Some {| Ord.key := Some 5; Ord.draggable := true |};
                                    Some {| Ord.key := Some 2; Ord.draggable := false |} ])
                   [mkItem 2; mkItem 7]))
    ∧ Forall (λ v, is_draggable v = false) (elems (ordering s0))
    ∧ dragging s0 = None.
Proof.
  apply (reload_restores_order
           (array_of [ Some {| Ord.key := Some 5; Ord.draggable := true |};
                       Some {| Ord.key := Some 2; Ord.draggable := false |} ])
           [mkItem 2; mkItem 7]).
  unfold WellFormed. simpl. repeat constructor.
Defined.

(** ** The rendered rows *)

Lemma itemOf_Some items e item :
  itemOf items e = Some item → item ∈ items ∧ Some (Item.key item) = Ord.key e.
Proof.
  intros [Hin Hk]%find_some.
  split; [by apply list_elem_of_In|by apply bool_decide_eq_true in Hk].
Qed.

Lemma itemOf_is_Some items e :
  is_Some (itemOf items e) ↔ Ord.key e ∈ Some <$> (Item.key <$> items).
Proof.
  split.
  - intros [item [Hin Hk]%itemOf_Some]. rewrite <- Hk.
    by apply list_elem_of_fmap_2, list_elem_of_fmap_2.
  - intros (k & Hk & (item & -> & Hin)%list_elem_of_fmap)%list_elem_of_fmap.
    destruct (itemOf items e) as [x|] eqn:Hf; [done|].
    apply find_none with (x := item) in Hf; [|by apply list_elem_of_In].
    apply bool_decide_eq_false in Hf. congruence.
Qed.

Lemma NoDup_fmap_eq {A B} (f : A → B) (l : list A) x y :
  NoDup (f <$> l) → x ∈ l → y ∈ l → f x = f y → x = y.
Proof.
  induction l as [|z l IH]; intros Hnd Hx Hy Hf; [by apply elem_of_nil in Hx|].
  rewrite fmap_cons in Hnd. apply NoDup_cons in Hnd as [Hz Hnd].
  apply elem_of_cons in Hx as [->|Hx], Hy as [->|Hy]; [done| | |by apply IH].
  - destruct Hz. rewrite Hf. by apply list_elem_of_fmap_2.
  - destruct Hz. rewrite <- Hf. by apply list_elem_of_fmap_2.
Qed.

Lemma itemOf_own (items : list Item.t) e item :
  NoDup (Item.key <$> items) → item ∈ items → Ord.key e = Some (Item.key item) →
  itemOf items e = Some item.
Proof.
  intros Hnd Hin Hk.
  destruct (itemOf items e) as [x|] eqn:Hf.
  - apply itemOf_Some in Hf as [Hx Hkx]. f_equal.
    apply (NoDup_fmap_eq Item.key items); [done..|congruence].
  - apply find_none with (x := item) in Hf; [|by apply list_elem_of_In].
    apply bool_decide_eq_false in Hf. congruence.
Qed.

Lemma find_pure {A} (f : A → Completion bool) (g : A → bool) l :
  (∀ x, x ∈ l → f x = Normal (g x)) → Arr.find f l = Normal (List.find g l).
Proof.
  induction l as [|x l IH]; intros Hf; simpl; [done|].
  rewrite Hf by left. simpl. destruct (g x); [done|].
  apply IH. intros y Hy. apply Hf. by right.
Qed.

Lemma list_memo_wf o (es : list Ord.t) (items : list Item.t) :
  elems o = Some <$> es →
  list_memo o items
  = Normal (List.filter (λ '(item, _), bool_decide (is_Some item))
              ((λ e, (itemOf items e, Some e)) <$> es)).
Proof.
  intros Hel. unfold list_memo. rewrite Hel.
  rewrite (map_pure _ (λ v : Value, (v ≫= itemOf items, v))).
  - by rewrite <- list_fmap_compose.
  - intros v (e & -> & _)%list_elem_of_fmap.
    by rewrite (find_pure _ (λ item, bool_decide (Some (Item.key item) = Ord.key e))).
Qed.

(** With no item nothing is looked up, and no pair has an item. *)
Lemma list_memo_nil o : list_memo o [] = Normal [].
Proof.
  unfold list_memo. rewrite (map_pure _ (λ v : Value, (None, v))) by done.
  simpl. f_equal. induction (elems o) as [|v l IH]; [done|].
  rewrite fmap_cons. cbn [List.filter].
  by rewrite bool_decide_eq_false_2 by (by intros [? ?]).
Qed.

Lemma rows_entries (items : list Item.t) (es : list Ord.t) :
  snd <$> List.filter (λ '(item, _), bool_decide (is_Some item))
            ((λ e, (itemOf items e, Some e)) <$> es)
  = Some <$> List.filter
               (λ e, bool_decide (Ord.key e ∈ Some <$> (Item.key <$> items))) es.
Proof.
  induction es as [|e es IH]; [done|].
  rewrite fmap_cons. cbn [List.filter].
  rewrite (bool_decide_ext _ _ (itemOf_is_Some items e)).
  destruct (bool_decide (Ord.key e ∈ _)); [rewrite !fmap_cons|]; by rewrite IH.
Qed.

Lemma rows_items (items : list Item.t) (es : list Ord.t) :
  rowItems (List.filter (λ '(item, _), bool_decide (is_Some item))
              ((λ e, (itemOf items e, Some e)) <$> es))
  = omap (itemOf items) es.
Proof.
  unfold rowItems. induction es as [|e es IH]; [done|].
  rewrite fmap_cons. cbn [List.filter]. csimpl.
  destruct (itemOf items e) as [item|] eqn:Hf.
  - rewrite bool_decide_eq_true_2 by eauto. csimpl. by rewrite IH.
  - rewrite bool_decide_eq_false_2 by (by intros [? ?]). done.
Qed.

Lemma rows_items_keys (items : list Item.t) (es : list Ord.t) :
  (Some <$> (Item.key <$> omap (itemOf items) es)) `sublist_of` (Ord.key <$> es).
Proof.
  induction es as [|e es IH]; [done|]. simpl.
  destruct (itemOf items e) as [item|] eqn:Hf; simpl.
  - apply itemOf_Some in Hf as [_ ->]. by apply sublist_skip.
  - by apply sublist_cons.
Qed.

Lemma rows_items_perm o (es : list Ord.t) (items : list Item.t) :
  elems o = Some <$> es →
  NoDup (keys o) → NoDup (Item.key <$> items) →
  (∀ item, item ∈ items → Some (Item.key item) ∈ keys o) →
  omap (itemOf items) es ≡ₚ items.
Proof.
  intros Hel Hnd Hitems Hcov.
  assert (keys o = Ord.key <$> es) as Hkeys.
  { unfold keys. rewrite Hel, <- list_fmap_compose. done. }
  apply NoDup_Permutation.
  - apply (NoDup_fmap_1 Item.key), (NoDup_fmap_1 Some).
    eapply sublist_NoDup; [|apply rows_items_keys]. by rewrite <- Hkeys.
  - by apply (NoDup_fmap_1 Item.key).
  - intros item. rewrite list_elem_of_omap. split.
    + by intros (e & _ & [? _]%itemOf_Some).
    + intros Hin. specialize (Hcov item Hin). rewrite Hkeys in Hcov.
      apply list_elem_of_fmap in Hcov as (e & He & Hine).
      exists e. split; [done|]. by apply itemOf_own.
Qed.

(** X4. The rendered rows are a join of the store with the item list:
    for a well-formed store the memo is computed without error; the
    entries of the rows are the entries of the store whose key is the key
    of some item, in store order, so that an entry without an item gives
    no row; and each row carries an item of the list with the key of its
    entry. *)
Theorem list_memo_join :
  ∀ (o : Ordering) (items : list Item.t),
    WellFormed o →
    ∃ rs, list_memo o items = Normal rs
          ∧ snd <$> rs
            = List.filter
                (λ v : Value,
                   bool_decide (v ≫= Ord.key ∈ Some <$> (Item.key <$> items)))
                (elems o)
          ∧ ∀ r, r ∈ rs →
                 ∃ item e, r = (Some item, Some e) ∧ item ∈ items
                           ∧ Some (Item.key item) = Ord.key e.
Proof.
  intros o items Hwf.
  destruct (WellFormed_entries o Hwf) as (es & ids & Hel & _ & _).
  rewrite (list_memo_wf o es items Hel). eexists. split; [done|]. split.
  - rewrite rows_entries, Hel. clear.
    induction es as [|e es IH]; [done|]. rewrite !fmap_cons. cbn [List.filter].
    simpl. destruct (bool_decide _); [rewrite fmap_cons|]; by rewrite IH.
  - intros [item v] Hr. apply list_elem_of_In, filter_In in Hr as [Hr Hsome].
    apply list_elem_of_In, list_elem_of_fmap in Hr as (e & [= -> ->] & _).
    apply bool_decide_eq_true in Hsome as [x Hx]. exists x, e.
    rewrite Hx. split; [done|]. by apply itemOf_Some.
Qed.

Lemma list_memo_join_witness :
  ∃ rs, list_memo (initialOrdering (Some [3; 9; 1]) []) [mkItem 1; mkItem 3] = Normal rs
        ∧ snd <$> rs
          = List.filter
              (λ v : Value,
                 bool_decide
                   (v ≫= Ord.key ∈ Some <$> (Item.key <$> [mkItem 1; mkItem 3])))
              (elems (initialOrdering (Some [3; 9; 1]) []))
        ∧ ∀ r, r ∈ rs →
               ∃ item e, r = (Some item, Some e) ∧ item ∈ [mkItem 1; mkItem 3]
                         ∧ Some (Item.key item) = Ord.key e.
Proof.
  apply (list_memo_join (initialOrdering (Some [3; 9; 1]) []) [mkItem 1; mkItem 3]).
  unfold WellFormed. simpl. repeat constructor.
Defined.

(** X5. Computing the rows throws exactly when a slot of the store is
    [undefined] and the item list is not empty: [order.key] is read when
    [find] visits an item.  On the empty item list the memo is computed
    for every store, undefined slots included, and has no row. *)
Theorem list_memo_TypeError :
  ∀ (o : Ordering) (items : list Item.t),
    (list_memo o items = TypeError ↔ None ∈ elems o ∧ items ≠ [])
    ∧ list_memo o [] = Normal []
    ∧ list_memo (array_of [None]) [] = Normal []
    ∧ list_memo (array_of [None]) [mkItem 1] = TypeError.
Proof.
  intros o items. split_and!; [|apply list_memo_nil|reflexivity..].
  destruct items as [|x l].
  { rewrite list_memo_nil. split; [done|]. by intros [_ ?]. }
  unfold list_memo.
  destruct (Arr.map _ (elems o)) as [pairs|] eqn:Hm; simpl.
  - split; [done|]. intros [Hin _].
    match type of Hm with
    | Arr.map ?F _ = _ =>
        assert (Arr.map F (elems o) = TypeError) as Hf
          by (apply map_TypeError; by exists None)
    end.
    congruence.
  - split; [|done]. intros _.
    apply map_TypeError in Hm as ([e|] & Hin & Hf); [|done].
    by rewrite (find_pure _ (λ item, bool_decide (Some (Item.key item) = Ord.key e)))
      in Hf.
Qed.

(** X6. Every item is rendered exactly once: when the keys of the store
    are distinct, the keys of the items are distinct and every item has an
    entry, the items of the rows are a rearrangement of the item list. *)
Theorem list_memo_shows_each_item_once :
  ∀ (o : Ordering) (items : list Item.t),
    WellFormed o → NoDup (keys o) → NoDup (Item.key <$> items) →
    (∀ item, item ∈ items → Some (Item.key item) ∈ keys o) →
    ∃ rs, list_memo o items = Normal rs ∧ rowItems rs ≡ₚ items.
Proof.
  intros o items Hwf Hnd Hitems Hcov.
  destruct (WellFormed_entries o Hwf) as (es & ids & Hel & _ & _).
  rewrite (list_memo_wf o es items Hel). eexists. split; [done|].
  rewrite rows_items. by eapply rows_items_perm.
Qed.

Lemma list_memo_shows_each_item_once_witness :
  ∃ rs, list_memo (initialOrdering (Some [3; 9; 1]) []) [mkItem 1; mkItem 3] = Normal rs
        ∧ rowItems rs ≡ₚ [mkItem 1; mkItem 3].
Proof.
  apply (list_memo_shows_each_item_once
           (initialOrdering (Some [3; 9; 1]) []) [mkItem 1; mkItem 3]).
  - unfold WellFormed. simpl. repeat constructor.
  - apply (bool_decide_unpack _). vm_compute. exact I.
  - apply (bool_decide_unpack _). vm_compute. exact I.
  - intros item Hin. apply (bool_decide_unpack _).
    apply elem_of_cons in Hin as [->|Hin]; [vm_compute; exact I|].
    apply elem_of_cons in Hin as [->|Hin]; [vm_compute; exact I|].
    by apply elem_of_nil in Hin.
Defined.

Lemma entry_fmap (l : list Item.t) :
  (λ item, entry (Item.key item)) <$> l
  = Some <$> ((λ item, {| Ord.key := Some (Item.key item); Ord.draggable := false |}) <$> l).
Proof. by rewrite <- list_fmap_compose. Qed.

Lemma rows_of_own_items (items l : list Item.t) :
  NoDup (Item.key <$> items) → (∀ item, item ∈ l → item ∈ items) →
  omap (itemOf items)
    ((λ item, {| Ord.key := Some (Item.key item); Ord.draggable := false |}) <$> l)
  = l.
Proof.
  intros Hnd. induction l as [|x l IH]; intros Hin; [done|]. csimpl.
  rewrite (itemOf_own items _ x); [|done|by apply Hin; left|done].
  csimpl. f_equal. apply IH. intros item Hitem. apply Hin. by right.
Qed.

(** X7. A new item list, then a render: when the keys of the store and
    of the list are distinct, the layout effect and the memo both complete;
    the rows of the items the store already knew keep their place and
    their order, the new items follow in list order; and every item of
    the list is shown exactly once. *)
Theorem list_change_then_render :
  ∀ (o : Ordering) (d : option Z) (items : list Item.t),
    WellFormed o → NoDup (keys o) → NoDup (Item.key <$> items) →
    ∃ s rs0 rs,
      onListChange items {| ordering := o; dragging := d |} = Normal s
      ∧ list_memo o items = Normal rs0
      ∧ list_memo (ordering s) items = Normal rs
      ∧ rowItems rs = rowItems rs0 ++ unseen o items
      ∧ rowItems rs ≡ₚ items.
Proof.
  intros o d items Hwf Hnd Hitems.
  destruct (WellFormed_entries o Hwf) as (es & ids & Hel & _ & _).
  unfold onListChange. cbn [ordering dragging].
  rewrite (reconcile_wf items o Hwf), bind_Normal. fold (unseen o items).
  set (o' := array_of _).
  assert (elems o'
          = Some <$> (es ++ ((λ item, {| Ord.key := Some (Item.key item);
                                         Ord.draggable := false |}) <$> unseen o items)))
    as Hel'.
  { unfold o'. simpl. by rewrite fmap_app, Hel, entry_fmap. }
  rewrite (list_memo_wf o es items Hel).
  exists {| ordering := o'; dragging := d |}. eexists. eexists.
  split; [done|]. split; [done|]. cbn [ordering].
  rewrite (list_memo_wf o' _ items Hel'). split; [done|].
  assert (omap (itemOf items)
            (es ++ ((λ item, {| Ord.key := Some (Item.key item);
                                Ord.draggable := false |}) <$> unseen o items))
          = omap (itemOf items) es ++ unseen o items) as Happ.
  { rewrite omap_app. f_equal. apply rows_of_own_items; [done|].
    intros item Hin. by apply unseen_spec in Hin as [? _]. }
  rewrite !rows_items. split; [done|].
  apply (rows_items_perm o'); [done| |done|].
  - unfold o'. rewrite keys_appended. by apply unseen_NoDup.
  - intros item Hin. unfold o'. rewrite keys_appended.
    by apply unseen_covers, list_elem_of_fmap_2.
Qed.

Lemma list_change_then_render_witness :
  ∃ s rs0 rs,
    onListChange [mkItem 1; mkItem 7; mkItem 3]
      {| ordering := initialOrdering (Some [3; 9; 1]) []; dragging := None |}
    = Normal s
    ∧ list_memo (initialOrdering (Some [3; 9; 1]) []) [mkItem 1; mkItem 7; mkItem 3]
      = Normal rs0
    ∧ list_memo (ordering s) [mkItem 1; mkItem 7; mkItem 3] = Normal rs
    ∧ rowItems rs
      = rowItems rs0
        ++ unseen (initialOrdering (Some [3; 9; 1]) []) [mkItem 1; mkItem 7; mkItem 3]
    ∧ rowItems rs ≡ₚ [mkItem 1; mkItem 7; mkItem 3].
Proof.
  apply (list_change_then_render
           (initialOrdering (Some [3; 9; 1]) []) None [mkItem 1; mkItem 7; mkItem 3]).
  - unfold WellFormed. simpl. repeat constructor.
  - apply (bool_decide_unpack _). vm_compute. exact I.
  - apply (bool_decide_unpack _). vm_compute. exact I.
Defined.

(** X8. Without a persisted order a section shows its items in their
    natural order: mounted on items with distinct keys and no stored
    sequence, the rows are the items of the list, in list order. *)
Theorem mount_natural_order :
  ∀ items : list Item.t,
    NoDup (Item.key <$> items) →
    ∃ s0 rs, mount None items = Normal s0
             ∧ list_memo (ordering s0) items = Normal rs
             ∧ rowItems rs = items.
Proof.
  intros items Hnd. rewrite mount_eq. eexists. eexists. split; [done|].
  cbn [ordering].
  assert (unseen (initialOrdering None items) items = []) as ->.
  { apply unseen_nil. intros item Hin. unfold keys. simpl.
    rewrite <- list_fmap_compose. by apply (list_elem_of_fmap_2' _ _ item). }
  simpl. rewrite app_nil_r.
  rewrite (list_memo_wf (array_of ((λ item, entry (Item.key item)) <$> items))
             _ items (entry_fmap items)).
  split; [done|].
  rewrite rows_items. by apply rows_of_own_items.
Qed.

Lemma mount_natural_order_witness :
  ∃ s0 rs, mount None [mkItem 3; mkItem 1; mkItem 2] = Normal s0
           ∧ list_memo (ordering s0) [mkItem 3; mkItem 1; mkItem 2] = Normal rs
           ∧ rowItems rs = [mkItem 3; mkItem 1; mkItem 2].
Proof.
  apply (mount_natural_order [mkItem 3; mkItem 1; mkItem 2]).
  apply (bool_decide_unpack _). vm_compute. exact I.
Defined.

(** ** The filter and the two sections *)

Lemma filtered_itemPasses (toLowerCase : string → string)
    (items : list Item.t) (f : Filter) :
  filtered toLowerCase items f = List.filter (itemPasses toLowerCase f) items.
Proof. unfold filtered. by rewrite filter_filter. Qed.

Lemma filter_everything {A} (g : A → bool) l :
  (∀ x, x ∈ l → g x = true) → List.filter g l = l.
Proof.
  induction l as [|x l IH]; intros Hg; simpl; [done|].
  rewrite Hg by left. f_equal. apply IH. intros y Hy. apply Hg. by right.
Qed.

Lemma filter_sublist_impl {A} (g h : A → bool) l :
  (∀ x, x ∈ l → g x = true → h x = true) →
  List.filter g l `sublist_of` List.filter h l.
Proof.
  induction l as [|x l IH]; intros Himp; simpl; [done|].
  assert (List.filter g l `sublist_of` List.filter h l) as Hsub.
  { apply IH. intros y Hy. apply Himp. by right. }
  destruct (g x) eqn:Hg.
  - rewrite (Himp x) by (done || by left). by apply sublist_skip.
  - destruct (h x); [by apply sublist_cons|done].
Qed.

Lemma filter_nonempty {A} (g : A → bool) l :
  List.filter g l ≠ [] ↔ ∃ x, x ∈ l ∧ g x = true.
Proof.
  split.
  - destruct (List.filter g l) as [|x l'] eqn:Hf; [done|]. intros _.
    assert (In x (List.filter g l)) as Hin by (rewrite Hf; by left).
    apply filter_In in Hin as [Hin Hg]. exists x. by rewrite list_elem_of_In.
  - intros (x & Hin & Hg) Hnil.
    assert (In x (List.filter g l)) as Hx
      by (apply filter_In; by rewrite <- list_elem_of_In).
    by rewrite Hnil in Hx.
Qed.

Lemma filter_split_perm {A} (g : A → bool) l :
  List.filter (λ x, negb (g x)) l ++ List.filter g l ≡ₚ l.
Proof.
  induction l as [|x l IH]; simpl; [done|].
  destruct (g x); simpl.
  - by rewrite <- Permutation_middle, IH.
  - by rewrite IH.
Qed.

Lemma includes_empty d : Js.includes d "" = true.
Proof. by destruct d. Qed.

Lemma sectionShown_nonempty (l : list Item.t) : sectionShown l = true ↔ l ≠ [].
Proof. by destruct l. Qed.

Lemma allStatus_agree (items : list Item.t) :
  allStatus items = true ↔ uniform_status items.
Proof.
  unfold allStatus, Js.reduce, uniform_status.
  destruct items as [|x l]; simpl.
  - split; [|done]. intros _ x y Hx. by apply elem_of_nil in Hx.
  - rewrite status_fold_some, forallb_forall. split.
    + intros Hall.
      assert (∀ y, y ∈ x :: l → Item.status y = Item.status x) as Hx.
      { intros y [->|Hy]%elem_of_cons; [done|].
        symmetry. apply eqb_prop, Hall. by apply list_elem_of_In. }
      intros y z Hy Hz. by rewrite (Hx y), (Hx z).
    + intros Hsame y Hy. apply list_elem_of_In in Hy.
      rewrite (Hsame x y); [apply eqb_reflx|by left|by right].
Qed.

(** X9. The divider is rendered exactly when both sections are: the
    in-progress section and the completed section each render something
    iff their list is not empty, and the divider appears iff neither is
    empty. *)
Theorem divider_between_two_sections :
  ∀ filtered_items : list Item.t,
    dividerShown filtered_items = true
    ↔ sectionShown (inProgress filtered_items) = true
      ∧ sectionShown (completed filtered_items) = true.
Proof.
  intros l. unfold dividerShown, inProgress, completed.
  rewrite !sectionShown_nonempty, !filter_nonempty, negb_true_iff.
  rewrite <- !(Exists_exists (λ x, _ = true)).
  split.
  - intros Hall.
    destruct (decide (Exists (λ x, negb (Item.status x) = true) l)) as [Hf|Hf];
      [destruct (decide (Exists (λ x, Item.status x = true) l)) as [Ht|Ht]|]; [done| |].
    + assert (allStatus l = true); [|congruence].
      apply allStatus_agree. intros x y Hx Hy.
      rewrite Exists_exists in Ht.
      destruct (Item.status x) eqn:Hsx; [destruct Ht; eauto|].
      destruct (Item.status y) eqn:Hsy; [destruct Ht; eauto|done].
    + assert (allStatus l = true); [|congruence].
      apply allStatus_agree. intros x y Hx Hy.
      rewrite Exists_exists in Hf.
      destruct (Item.status x) eqn:Hsx; [|destruct Hf; exists x; by rewrite Hsx].
      destruct (Item.status y) eqn:Hsy; [done|destruct Hf; exists y; by rewrite Hsy].
  - rewrite !Exists_exists. intros [(x & Hx & Hsx) (y & Hy & Hsy)].
    destruct (allStatus l) eqn:Hall; [|done].
    apply allStatus_agree in Hall. specialize (Hall x y Hx Hy).
    rewrite Hall, Hsy in Hsx. done.
Qed.

(** X10. The two sections partition the filtered items: together they
    hold every filtered item exactly once, each keeps the relative order
    of the filtered list, and an item is in the in-progress section iff
    its status is [false], in the completed one iff it is [true]. *)
Theorem sections_partition :
  ∀ filtered_items : list Item.t,
    inProgress filtered_items ++ completed filtered_items ≡ₚ filtered_items
    ∧ inProgress filtered_items `sublist_of` filtered_items
    ∧ completed filtered_items `sublist_of` filtered_items
    ∧ (∀ x, x ∈ inProgress filtered_items
            ↔ x ∈ filtered_items ∧ Item.status x = false)
    ∧ (∀ x, x ∈ completed filtered_items
            ↔ x ∈ filtered_items ∧ Item.status x = true).
Proof.
  intros l. unfold inProgress, completed. split_and!.
  - apply (filter_split_perm Item.status).
  - apply filter_sublist.
  - apply filter_sublist.
  - intros x. by rewrite list_elem_of_In, filter_In, negb_true_iff, <- list_elem_of_In.
  - intros x. by rewrite list_elem_of_In, filter_In, <- list_elem_of_In.
Qed.

(** X11. With no criterion nothing is filtered out: when no label is
    selected and every search word is the empty string (or there is none),
    the filtered list is the whole list, whatever [toLowerCase] does. *)
Theorem filtered_without_criteria :
  ∀ (toLowerCase : string → string) (items : list Item.t) (f : Filter),
    label f = None → Forall (λ w, w = "") (words f) →
    filtered toLowerCase items f = items.
Proof.
  intros toLowerCase items f Hl Hw. rewrite filtered_itemPasses.
  apply filter_everything. intros x _. unfold itemPasses. rewrite Hl. simpl.
  apply forallb_forall. intros w Hin. rewrite Forall_forall in Hw.
  rewrite (Hw w) by (by apply list_elem_of_In). apply includes_empty.
Qed.

Lemma filtered_without_criteria_witness :
  filtered Js.asciiLowerCase [mkItem 3; mkItem 1] {| words := [""]; label := None |}
  = [mkItem 3; mkItem 1].
Proof.
  apply (filtered_without_criteria Js.asciiLowerCase [mkItem 3; mkItem 1]
           {| words := [""]; label := None |}).
  - reflexivity.
  - simpl. repeat constructor.
Defined.

(** X12. Each item is judged on its own: filtering is idempotent, it
    distributes over concatenation of item lists, and it commutes with
    the split into the two sections, whatever [toLowerCase] does. *)
Theorem filtered_itemwise :
  ∀ (toLowerCase : string → string) (items more : list Item.t) (f : Filter),
    filtered toLowerCase (filtered toLowerCase items f) f
    = filtered toLowerCase items f
    ∧ filtered toLowerCase (items ++ more) f
      = filtered toLowerCase items f ++ filtered toLowerCase more f
    ∧ inProgress (filtered toLowerCase items f)
      = filtered toLowerCase (inProgress items) f
    ∧ completed (filtered toLowerCase items f)
      = filtered toLowerCase (completed items) f.
Proof.
  intros toLowerCase items more f.
  rewrite !filtered_itemPasses. unfold inProgress, completed.
  rewrite !filter_filter. split_and!.
  - apply List.filter_ext. intros x. by destruct (itemPasses toLowerCase f x).
  - apply List.filter_app.
  - apply List.filter_ext. intros x. apply andb_comm.
  - apply List.filter_ext. intros x. apply andb_comm.
Qed.

(** X13. More criteria, fewer items: if every search word of [f1] is a
    search word of [f2] and [f1] selects no label or the label of [f2],
    then what passes [f2] passes [f1], in the same order.  In particular
    the order and the repetition of the search words do not matter, nor
    does what [toLowerCase] does. *)
Theorem filtered_narrows :
  ∀ (toLowerCase : string → string) (items : list Item.t) (f1 f2 : Filter),
    (∀ w, w ∈ words f1 → w ∈ words f2) →
    (label f1 = None ∨ label f1 = label f2) →
    filtered toLowerCase items f2 `sublist_of` filtered toLowerCase items f1.
Proof.
  intros toLowerCase items f1 f2 Hw Hl. rewrite !filtered_itemPasses.
  apply filter_sublist_impl. intros x _. unfold itemPasses.
  rewrite !andb_true_iff, !forallb_forall. intros [Hlab Hwords]. split.
  - destruct Hl as [->| ->]; done.
  - intros w Hin. apply Hwords. by apply list_elem_of_In, Hw, list_elem_of_In.
Qed.

Lemma filtered_narrows_witness :
  filtered Js.asciiLowerCase
    [ {| Item.key := 1; Item.order := 0; Item.description := "Buy Milk";
         Item.status := false; Item.labels := [red] |} ]
    {| words := ["milk"; "buy"; "milk"]; label := Some red |}
  `sublist_of`
  filtered Js.asciiLowerCase
    [ {| Item.key := 1; Item.order := 0; Item.description := "Buy Milk";
         Item.status := false; Item.labels := [red] |} ]
    {| words := ["buy"]; label := None |}.
Proof.
  apply (filtered_narrows Js.asciiLowerCase
           [ {| Item.key := 1; Item.order := 0; Item.description := "Buy Milk";
                Item.status := false; Item.labels := [red] |} ]
           {| words := ["buy"]; label := None |}
           {| words := ["milk"; "buy"; "milk"]; label := Some red |}).
  - intros w Hin. apply (bool_decide_unpack _).
    apply elem_of_cons in Hin as [->|Hin]; [vm_compute; exact I|].
    by apply elem_of_nil in Hin.
  - left. reflexivity.
Defined.

(** ** More on moving an entry *)

Lemma insert_at_back {A} (l : list A) (n : nat) x :
  l !! n = Some x → insert_at n x (delete n l) = l.
Proof.
  intros Hx. apply lookup_lt_Some in Hx as Hn.
  unfold insert_at. rewrite delete_take_drop.
  rewrite take_app_le, take_take by (rewrite length_take; lia).
  rewrite drop_app_ge by (rewrite length_take; lia).
  rewrite length_take, drop_drop.
  replace (n `min` n)%nat with n by lia.
  replace (S n + (n - n `min` length l))%nat with (S n) by lia.
  by apply take_drop_middle.
Qed.

Lemma insert_at_end {A} (l : list A) (n : nat) x :
  (length l ≤ n)%nat → insert_at n x l = l ++ [x].
Proof.
  intros Hn. unfold insert_at. by rewrite take_ge, drop_ge by lia.
Qed.

Lemma getOrder_unique o id (n : nat) e :
  WellFormed o → NoDup (keys o) →
  elems o !! n = Some (Some e) → Ord.key e = Some id →
  getOrder o id = Normal (Z.of_nat n).
Proof.
  intros Hwf Hnd Hn He.
  assert (keys o !! n = Some (Some id)) as Hkn.
  { unfold keys. rewrite list_lookup_fmap, Hn. simpl. by rewrite He. }
  assert (Some id ∈ keys o) as Hin by (apply list_elem_of_lookup; eauto).
  destruct (getOrder_present o id Hwf Hin) as (m & e' & Hget & Hm & He').
  assert (keys o !! m = Some (Some id)) as Hkm.
  { unfold keys. rewrite list_lookup_fmap, Hm. simpl. by rewrite He'. }
  by rewrite Hget, (NoDup_lookup _ _ _ _ Hnd Hkm Hkn).
Qed.

Lemma rearranged_store o o' :
  elems o' ≡ₚ elems o →
  keys o' ≡ₚ keys o ∧ (WellFormed o → WellFormed o') ∧ (NoDup (keys o) → NoDup (keys o')).
Proof.
  intros Hperm.
  assert (keys o' ≡ₚ keys o) as Hkeys by (unfold keys; by rewrite Hperm).
  unfold WellFormed. rewrite Hperm, Hkeys. done.
Qed.

Lemma setOrder_rearranges o (p : nat) v (t : Z) o' :
  elems o !! p = Some v →
  elems o' = insert_at (Z.to_nat t) v (delete p (elems o)) →
  elems o' ≡ₚ elems o.
Proof.
  intros Hv ->. rewrite insert_at_perm. symmetry. by apply delete_Permutation.
Qed.

(** X14. Dragging an entry away and back restores the order: in a
    well-formed store with distinct identifiers, after [setOrder id t] the
    identifier is found at [t], and moving it back to its old position
    gives the original sequence. *)
Theorem setOrder_there_and_back :
  ∀ (o : Ordering) (id p t : Z),
    WellFormed o → NoDup (keys o) →
    getOrder o id = Normal p → 0 ≤ p →
    0 ≤ t < Z.of_nat (length (elems o)) →
    ∃ o' o'',
      setOrder id t o = Normal o'
      ∧ getOrder o' id = Normal t
      ∧ setOrder id p o' = Normal o''
      ∧ elems o'' = elems o.
Proof.
  intros o id p t Hwf Hnd Hget Hp Ht.
  destruct (getOrder_hit _ _ _ Hget Hp) as (n & e & -> & Hn & He).
  destruct (setOrder_present o id n (Some e) t Hget Hn) as (o' & Ho' & Hel & _); [lia|].
  apply lookup_lt_Some in Hn as Hlen.
  assert (Z.to_nat t ≤ length (delete n (elems o)))%nat as Hle.
  { rewrite length_delete by eauto. lia. }
  assert (elems o' !! Z.to_nat t = Some (Some e)) as Ht'.
  { rewrite Hel. by apply insert_at_lookup. }
  destruct (rearranged_store o o' (setOrder_rearranges _ _ _ _ _ Hn Hel))
    as (_ & Hwf' & Hnd').
  specialize (Hwf' Hwf). specialize (Hnd' Hnd).
  assert (getOrder o' id = Normal t) as Hget'.
  { rewrite (getOrder_unique o' id (Z.to_nat t) e) by done. f_equal. lia. }
  assert (getOrder o' id = Normal (Z.of_nat (Z.to_nat t))) as Hget''.
  { rewrite Hget'. f_equal. lia. }
  destruct (setOrder_present o' id _ (Some e) (Z.of_nat n) Hget'' Ht')
    as (o'' & Ho'' & Hel'' & _); [lia|].
  exists o', o''. split_and!; [done..|].
  rewrite Hel'', Hel, Nat2Z.id, insert_at_delete by done.
  by apply insert_at_back.
Qed.

Lemma setOrder_there_and_back_witness :
  ∃ o' o'',
    setOrder 2 0 (initialOrdering (Some [3; 1; 2; 5]) []) = Normal o'
    ∧ getOrder o' 2 = Normal 0
    ∧ setOrder 2 2 o' = Normal o''
    ∧ elems o'' = elems (initialOrdering (Some [3; 1; 2; 5]) []).
Proof.
  apply (setOrder_there_and_back (initialOrdering (Some [3; 1; 2; 5]) []) 2 2 0).
  - unfold WellFormed. simpl. repeat constructor.
  - apply (bool_decide_unpack _). vm_compute. exact I.
  - reflexivity.
  - lia.
  - simpl. lia.
Defined.

(** X15. The ends of the sequence: a target at or beyond the last
    position puts the entry last, and the array neither grows nor gets a
    gap; the target [0] puts it first. *)
Theorem setOrder_to_the_ends :
  ∀ (o : Ordering) (id p : Z),
    getOrder o id = Normal p → 0 ≤ p →
    ∃ e, elems o !! Z.to_nat p = Some (Some e)
         ∧ (∀ t, Z.of_nat (length (elems o)) - 1 ≤ t →
                 ∃ o', setOrder id t o = Normal o'
                       ∧ elems o' = delete (Z.to_nat p) (elems o) ++ [Some e])
         ∧ ∃ o', setOrder id 0 o = Normal o'
                 ∧ elems o' = Some e :: delete (Z.to_nat p) (elems o).
Proof.
  intros o id p Hget Hp.
  destruct (getOrder_hit _ _ _ Hget Hp) as (n & e & -> & Hn & He).
  apply lookup_lt_Some in Hn as Hlen.
  exists e. rewrite Nat2Z.id. split_and!; [done| |].
  - intros t Ht.
    destruct (setOrder_present o id n (Some e) t Hget Hn) as (o' & Ho' & Hel & _); [lia|].
    exists o'. split; [done|]. rewrite Hel. apply insert_at_end.
    rewrite length_delete by eauto. lia.
  - destruct (setOrder_present o id n (Some e) 0 Hget Hn) as (o' & Ho' & Hel & _); [lia|].
    exists o'. split; [done|]. rewrite Hel. unfold insert_at. simpl. by rewrite drop_0.
Qed.

Lemma setOrder_to_the_ends_witness :
  ∃ e, elems (initialOrdering (Some [3; 1; 2; 5]) []) !! Z.to_nat 1 = Some (Some e)
       ∧ (∀ t, Z.of_nat (length (elems (initialOrdering (Some [3; 1; 2; 5]) []))) - 1 ≤ t →
               ∃ o', setOrder 1 t (initialOrdering (Some [3; 1; 2; 5]) []) = Normal o'
                     ∧ elems o'
                       = delete (Z.to_nat 1) (elems (initialOrdering (Some [3; 1; 2; 5]) []))
                         ++ [Some e])
       ∧ ∃ o', setOrder 1 0 (initialOrdering (Some [3; 1; 2; 5]) []) = Normal o'
               ∧ elems o'
                 = Some e :: delete (Z.to_nat 1) (elems (initialOrdering (Some [3; 1; 2; 5]) [])).
Proof.
  apply (setOrder_to_the_ends (initialOrdering (Some [3; 1; 2; 5]) []) 1 1).
  - reflexivity.
  - lia.
Defined.

(** X16. An updater that runs on a newer state than the render it was
    created in still only rearranges: when [oldIndex], looked up in the
    rendered array, is a position of the current array and the target is
    not negative, the result holds exactly the entries of the current
    array. *)
Theorem setOrder_in_stale_render :
  ∀ (rendered current : Ordering) (id p t : Z),
    getOrder rendered id = Normal p →
    0 ≤ p < Z.of_nat (length (elems current)) → 0 ≤ t →
    ∃ o', setOrder_in rendered id t current = Normal o'
          ∧ elems o' ≡ₚ elems current
          ∧ length (elems o') = length (elems current).
Proof.
  intros rendered current id p t Hget Hp Ht.
  unfold setOrder_in. unfold getOrder in Hget. rewrite Hget, bind_Normal.
  eexists. split; [done|].
  destruct (lookup_lt_is_Some_2 (elems current) (Z.to_nat p)) as [v Hv]; [lia|].
  replace p with (Z.of_nat (Z.to_nat p)) by lia.
  assert (elems (setOrder_update (Z.of_nat (Z.to_nat p)) t current) ≡ₚ elems current)
    as Hperm.
  { destruct (decide (t = Z.of_nat (Z.to_nat p))) as [->|Hne].
    - by rewrite setOrder_update_same.
    - rewrite (setOrder_update_move _ _ _ _ Hv) by done. simpl.
      rewrite insert_at_perm. symmetry. by apply delete_Permutation. }
  split; [done|]. by rewrite Hperm.
Qed.

Lemma setOrder_in_stale_render_witness :
  ∃ o', setOrder_in (initialOrdering (Some [3; 1; 2]) []) 2 0
          (initialOrdering (Some [1; 3; 2; 5]) []) = Normal o'
        ∧ elems o' ≡ₚ elems (initialOrdering (Some [1; 3; 2; 5]) [])
        ∧ length (elems o') = length (elems (initialOrdering (Some [1; 3; 2; 5]) [])).
Proof.
  apply (setOrder_in_stale_render
           (initialOrdering (Some [3; 1; 2]) [])
           (initialOrdering (Some [1; 3; 2; 5]) []) 2 2 0).
  - reflexivity.
  - simpl. lia.
  - lia.
Defined.

(** ** More on the drag handlers *)

(** X17. Live reindexing: while an item with a non-zero key is dragged,
    entering a row moves the dragged entry to the position that row had;
    the entries are only rearranged, the drag stays active, and entering
    the dragged row itself changes nothing. *)
Theorem onDragEnter_takes_the_place :
  ∀ (s : State) (d j : Z),
    WellFormed (ordering s) → NoDup (keys (ordering s)) →
    dragging s = Some d → d ≠ 0 →
    Some d ∈ keys (ordering s) → Some j ∈ keys (ordering s) →
    ∃ n s',
      getOrder (ordering s) j = Normal n
      ∧ onDragEnter j s = Normal s'
      ∧ getOrder (ordering s') d = Normal n
      ∧ dragging s' = Some d
      ∧ elems (ordering s') ≡ₚ elems (ordering s)
      ∧ (j = d → s' = s).
Proof.
  intros [o dr] d j Hwf Hnd Hdr Hd0 Hd Hj. simpl in *. subst dr.
  destruct (getOrder_present _ j Hwf Hj) as (n & ej & Hgetj & Hn & Hej).
  destruct (getOrder_present _ d Hwf Hd) as (p & e & Hget & Hp & He).
  destruct (setOrder_present o d p (Some e) (Z.of_nat n) Hget Hp) as (o' & Ho' & Hel & Hsame);
    [lia|].
  apply lookup_lt_Some in Hn as Hlen. apply lookup_lt_Some in Hp as Hlenp.
  pose proof (setOrder_rearranges _ _ _ _ _ Hp Hel) as Hperm.
  destruct (rearranged_store o o' Hperm) as (_ & Hwf' & Hnd').
  exists (Z.of_nat n), {| ordering := o'; dragging := Some d |}.
  split; [done|]. split.
  - unfold onDragEnter. simpl.
    destruct (Z.eqb_spec d 0) as [?|_]; [done|]. simpl.
    by rewrite Hgetj, bind_Normal, Ho'.
  - simpl. split_and!; [|done..|].
    + apply (getOrder_unique o' d n e); [by apply Hwf'|by apply Hnd'| |done].
      rewrite Hel, Nat2Z.id. apply insert_at_lookup.
      rewrite length_delete by eauto. lia.
    + intros ->. rewrite Hgetj in Hget. injection Hget as Hnp.
      by rewrite Hsame by lia.
Qed.

Lemma onDragEnter_takes_the_place_witness :
  ∃ n s',
    getOrder (ordering {| ordering := initialOrdering (Some [3; 1; 2; 5]) [];
                          dragging := Some 2 |}) 3 = Normal n
    ∧ onDragEnter 3 {| ordering := initialOrdering (Some [3; 1; 2; 5]) [];
                       dragging := Some 2 |} = Normal s'
    ∧ getOrder (ordering s') 2 = Normal n
    ∧ dragging s' = Some 2
    ∧ elems (ordering s')
      ≡ₚ elems (ordering {| ordering := initialOrdering (Some [3; 1; 2; 5]) [];
                            dragging := Some 2 |})
    ∧ (3 = 2 → s' = {| ordering := initialOrdering (Some [3; 1; 2; 5]) [];
                       dragging := Some 2 |}).
Proof.
  apply (onDragEnter_takes_the_place
           {| ordering := initialOrdering (Some [3; 1; 2; 5]) []; dragging := Some 2 |}
           2 3).
  - unfold WellFormed. simpl. repeat constructor.
  - apply (bool_decide_unpack _). vm_compute. exact I.
  - reflexivity.
  - lia.
  - apply (bool_decide_unpack _). vm_compute. exact I.
  - apply (bool_decide_unpack _). vm_compute. exact I.
Defined.

(** X18. The item with key [0] cannot be reordered: [if (dragging)] is
    false for [0], so while it is dragged no sequence of drag-enter events
    changes the state, and drag-over does not accept a drop. *)
Theorem drag_of_key_zero :
  ∀ (s : State) (entered : list Z),
    dragging s = Some 0 →
    run (DragEnter <$> entered) s = Normal s ∧ onDragOver s = false.
Proof.
  intros s entered Hd. split.
  - induction entered as [|j js IH]; [done|].
    rewrite fmap_cons. simpl. by rewrite (onDragEnter_key_zero j s Hd), bind_Normal.
  - unfold onDragOver. by rewrite Hd.
Qed.

Lemma drag_of_key_zero_witness :
  run (DragEnter <$> [1; 2; 1])
    {| ordering := initialOrdering (Some [0; 1; 2]) []; dragging := Some 0 |}
  = Normal {| ordering := initialOrdering (Some [0; 1; 2]) []; dragging := Some 0 |}
  ∧ onDragOver {| ordering := initialOrdering (Some [0; 1; 2]) []; dragging := Some 0 |}
    = false.
Proof.
  apply (drag_of_key_zero
           {| ordering := initialOrdering (Some [0; 1; 2]) []; dragging := Some 0 |}
           [1; 2; 1]).
  reflexivity.
Defined.

Lemma grow_step seen seen' ev s :
  Safe seen s → addressed seen ev = Some seen' →
  ∃ s', handle ev s = Normal s' ∧ Safe seen' s'
        ∧ keys (ordering s) ⊆+ keys (ordering s').
Proof.
  intros HSafe Ha. pose proof HSafe as (Hwf & Hseen & Hdrag).
  destruct ev as [k|k|k|k|k|items]; simpl in *;
    try case_decide; simplify_eq.
  - unfold onDragDown.
    destruct (setDraggable_keys (ordering s) k true Hwf) as (o' & Ho' & Hk & _).
    destruct (Safe_setDraggable _ _ k true (dragging s) HSafe) as (o2 & Ho2 & ?); [by left|].
    rewrite Ho2 in *. simplify_eq. rewrite bind_Normal. eexists. split_and!; [done..|].
    simpl. by rewrite Hk.
  - unfold onDragUp. destruct (truthy (dragging s)); simpl; [by exists s|].
    destruct (setDraggable_keys (ordering s) k false Hwf) as (o' & Ho' & Hk & _).
    destruct (Safe_setDraggable _ _ k false (dragging s) HSafe) as (o2 & Ho2 & ?); [by left|].
    rewrite Ho2 in *. simplify_eq. rewrite bind_Normal. eexists. split_and!; [done..|].
    simpl. by rewrite Hk.
  - unfold onDragStart. eexists. split; [done|]. split; [|done].
    unfold Safe. simpl. split_and!; [done..|]. intros ? [= <-]. auto.
  - unfold onDragEnter. destruct (dragging s) as [d|] eqn:Hd; [|by exists s].
    destruct (truthy (Some d)); [|by exists s].
    destruct (getOrder_present _ k Hwf (Hseen k H)) as (n & _ & -> & _).
    rewrite bind_Normal.
    destruct (getOrder_present _ d Hwf (Hdrag d eq_refl)) as (p & e & Hget & Hp & He).
    destruct (setOrder_present _ d p (Some e) (Z.of_nat n) Hget Hp) as (o' & -> & Hel & _);
      [lia|].
    rewrite bind_Normal. eexists. split; [done|].
    pose proof (setOrder_rearranges _ _ _ _ _ Hp Hel) as Hperm.
    destruct (rearranged_store _ o' Hperm) as (Hkeys & Hwf' & _).
    unfold Safe. simpl. split_and!.
    + by apply Hwf'.
    + intros k' Hk'. rewrite Hkeys. auto.
    + intros k' [= <-]. rewrite Hkeys. auto.
    + by rewrite Hkeys.
  - unfold onDragEnd.
    destruct (setDraggable_keys (ordering s) k false Hwf) as (o' & Ho' & Hk & _).
    destruct (Safe_setDraggable _ _ k false None HSafe) as (o2 & Ho2 & ?); [by right|].
    rewrite Ho2 in *. simplify_eq. rewrite bind_Normal. eexists. split_and!; [done..|].
    simpl. by rewrite Hk.
  - destruct (Safe_onListChange _ _ items HSafe) as (s' & Hs' & HSafe').
    exists s'. split_and!; [done..|].
    unfold onListChange in Hs'. rewrite (reconcile_wf items _ Hwf), bind_Normal in Hs'.
    injection Hs' as <-. cbn [ordering]. fold (unseen (ordering s) items).
    rewrite keys_appended. by apply submseteq_inserts_r.
Qed.

Lemma grow_run evs : ∀ seen seen' s,
  Safe seen s → deliverable seen evs = Some seen' →
  ∃ s', run evs s = Normal s' ∧ Safe seen' s'
        ∧ keys (ordering s) ⊆+ keys (ordering s').
Proof.
  induction evs as [|ev evs IH]; intros seen seen' s HSafe Hd; simpl in *.
  - injection Hd as <-. eauto.
  - destruct (addressed seen ev) as [seen1|] eqn:Ha; [|done]. simpl in Hd.
    destruct (grow_step _ _ _ _ HSafe Ha) as (s1 & -> & HSafe1 & Hsub1).
    rewrite bind_Normal.
    destruct (IH _ _ _ HSafe1 Hd) as (s' & Hrun & HSafe' & Hsub').
    exists s'. split_and!; [done..|]. by etrans.
Qed.

(** X19. The store never forgets an identifier: from mounting on, after
    any sequence of events delivered to the section, every identifier of
    the mounted store (the persisted ones included, whether or not an item
    still has them) is still in the store, as many times, and the store is
    at least as long. *)
Theorem stale_identifiers_stay :
  ∀ (persisted : option (list Z)) (items : list Item.t)
    (evs : list Event) (seen' : list Z),
    deliverable (Item.key <$> items) evs = Some seen' →
    ∃ s0 s,
      mount persisted items = Normal s0
      ∧ run evs s0 = Normal s
      ∧ keys (ordering s0) ⊆+ keys (ordering s)
      ∧ (∀ id, id ∈ default [] persisted → Some id ∈ keys (ordering s))
      ∧ (length (elems (ordering s0)) ≤ length (elems (ordering s)))%nat.
Proof.
  intros persisted items evs seen' Hd.
  destruct (mount_Safe persisted items) as (s0 & Hmount & HSafe).
  destruct (grow_run _ _ _ _ HSafe Hd) as (s & Hrun & _ & Hsub).
  exists s0, s. split_and!; [done..| |].
  - intros id Hid. refine (elem_of_submseteq _ _ _ _ Hsub).
    rewrite mount_eq in Hmount. injection Hmount as <-. cbn [ordering].
    rewrite keys_appended. apply elem_of_app. left.
    destruct persisted as [ids|]; [|by apply elem_of_nil in Hid].
    unfold keys. simpl. rewrite <- list_fmap_compose.
    by apply (list_elem_of_fmap_2' _ _ id).
  - apply submseteq_length in Hsub. unfold keys in Hsub.
    by rewrite !length_fmap in Hsub.
Qed.

Lemma stale_identifiers_stay_witness :
  ∃ s0 s,
    mount (Some [9; 3]) [mkItem 3; mkItem 1] = Normal s0
    ∧ run [DragDown 1; DragStart 1; DragEnter 3; ListChange [mkItem 1]; DragEnd 1] s0
      = Normal s
    ∧ keys (ordering s0) ⊆+ keys (ordering s)
    ∧ (∀ id, id ∈ default [] (Some [9; 3]) → Some id ∈ keys (ordering s))
    ∧ (length (elems (ordering s0)) ≤ length (elems (ordering s)))%nat.
Proof.
  apply (stale_identifiers_stay (Some [9; 3]) [mkItem 3; mkItem 1]
           [DragDown 1; DragStart 1; DragEnter 3; ListChange [mkItem 1]; DragEnd 1]
           [3; 1; 1]).
  vm_compute. reflexivity.
Defined.

(** ** More on the flag, the reconciliation and the cookie name *)

Lemma findIndex_same_keys key (l l' : list Value) i :
  Forall is_entry l → Forall is_entry l' →
  (λ v : Value, v ≫= Ord.key) <$> l = (λ v : Value, v ≫= Ord.key) <$> l' →
  Js.findIndex_from (key_is key) l i = Js.findIndex_from (key_is key) l' i.
Proof.
  intros Hl. revert l' i. induction Hl as [|v l Hv _ IH]; intros l' i Hl' Hk.
  - destruct l'; [done|]. by rewrite fmap_cons in Hk.
  - destruct Hl' as [|v' l' Hv' Hl']; [by rewrite fmap_cons in Hk|].
    rewrite !fmap_cons in Hk. injection Hk as Hk Hks.
    apply is_entry_inv in Hv as (e & k & -> & He).
    apply is_entry_inv in Hv' as (e' & k' & -> & He').
    simpl in *. rewrite <- Hk. destruct (bool_decide _); simpl; [done|].
    by apply IH.
Qed.

Lemma setDraggable_at o k b (n : nat) e :
  getOrder o k = Normal (Z.of_nat n) → elems o !! n = Some (Some e) →
  setDraggable k b o
  = Normal {| elems := <[n := Some {| Ord.key := Ord.key e; Ord.draggable := b |}]>
                         (elems o);
              minus1 := None |}.
Proof.
  intros Hget Hn. unfold setDraggable. unfold getOrder in Hget.
  rewrite Hget, bind_Normal, slice_copy, (get_lookup _ _ _ Hn).
  apply lookup_lt_Some in Hn as Hlt.
  unfold set, array_of, with_draggable; simpl.
  destruct (Z.leb_spec 0 (Z.of_nat n)); [|lia].
  destruct (Z.ltb_spec (Z.of_nat n) (Z.of_nat (length (elems o)))); [|lia].
  by rewrite Nat2Z.id.
Qed.

(** X20. Setting the flag of a known identifier changes one flag and
    nothing else: the entry at the identifier's position gets the value,
    every other slot is as before, every identifier keeps its position,
    and doing it again changes nothing. *)
Theorem setDraggable_sets_one_flag :
  ∀ (o : Ordering) (k : Z) (b : bool),
    WellFormed o → Some k ∈ keys o →
    ∃ (n : nat) o',
      getOrder o k = Normal (Z.of_nat n)
      ∧ setDraggable k b o = Normal o'
      ∧ elems o' !! n = Some (Some {| Ord.key := Some k; Ord.draggable := b |})
      ∧ (∀ m : nat, m ≠ n → elems o' !! m = elems o !! m)
      ∧ (∀ k', getOrder o' k' = getOrder o k')
      ∧ setDraggable k b o' = Normal o'.
Proof.
  intros o k b Hwf Hin.
  destruct (getOrder_present o k Hwf Hin) as (n & e & Hget & Hn & He).
  apply lookup_lt_Some in Hn as Hlt.
  pose proof (setDraggable_at o k b n e Hget Hn) as Hset. rewrite He in Hset.
  set (x := {| Ord.key := Some k; Ord.draggable := b |}) in *.
  set (o' := {| elems := <[n := Some x]> (elems o); minus1 := None |}) in *.
  assert (keys o' = keys o) as Hkeys by (by apply (keys_insert_same o n e k b None)).
  assert (WellFormed o') as Hwf' by (by apply Forall_insert).
  assert (∀ k', getOrder o' k' = getOrder o k') as Hpos.
  { intros k'. by apply findIndex_same_keys. }
  assert (elems o' !! n = Some (Some x)) as Hn'
    by (by apply list_lookup_insert_eq).
  exists n, o'. split_and!; [done..| |done|].
  - intros m Hm. by apply list_lookup_insert_ne.
  - rewrite (setDraggable_at o' k b n x) by (by rewrite ?Hpos).
    unfold o'. simpl. by rewrite list_insert_insert_eq.
Qed.

Lemma setDraggable_sets_one_flag_witness :
  ∃ (n : nat) o',
    getOrder (initialOrdering (Some [3; 1; 2]) []) 1 = Normal (Z.of_nat n)
    ∧ setDraggable 1 true (initialOrdering (Some [3; 1; 2]) []) = Normal o'
    ∧ elems o' !! n = Some (Some {| Ord.key := Some 1; Ord.draggable := true |})
    ∧ (∀ m : nat, m ≠ n → elems o' !! m = elems (initialOrdering (Some [3; 1; 2]) []) !! m)
    ∧ (∀ k', getOrder o' k' = getOrder (initialOrdering (Some [3; 1; 2]) []) k')
    ∧ setDraggable 1 true o' = Normal o'.
Proof.
  apply (setDraggable_sets_one_flag (initialOrdering (Some [3; 1; 2]) []) 1 true).
  - unfold WellFormed. simpl. repeat constructor.
  - apply (bool_decide_unpack _). vm_compute. exact I.
Defined.

Lemma reconcile_unseen (items : list Item.t) o :
  WellFormed o →
  reconcile items o
  = Normal (array_of (elems o ++ ((λ item, entry (Item.key item)) <$> unseen o items))).
Proof. apply reconcile_wf. Qed.

(** X21. Reconciling in two steps is reconciling once: for item lists
    whose keys are all distinct, reconciling with the first and then with
    the second gives the same array as reconciling with both at once. *)
Theorem reconcile_in_two_steps :
  ∀ (o : Ordering) (first second : list Item.t),
    WellFormed o → NoDup (Item.key <$> (first ++ second)) →
    (reconcile first o ≫= reconcile second) = reconcile (first ++ second) o.
Proof.
  intros o l1 l2 Hwf Hnd.
  pose proof (reconcile_unseen l1 o Hwf) as H1.
  pose proof (reconcile_WellFormed _ _ _ Hwf H1) as Hwf1.
  rewrite H1, bind_Normal, (reconcile_unseen l2 _ Hwf1), (reconcile_unseen (l1 ++ l2) o Hwf).
  set (o1 := array_of (elems o ++ ((λ item, entry (Item.key item)) <$> unseen o l1))).
  assert (unseen o1 l2 = unseen o l2) as ->.
  { unfold unseen. apply filter_ext_in. intros item Hitem.
    apply bool_decide_ext. unfold o1. rewrite keys_appended, not_elem_of_app.
    split; [by intros []|]. intros Hnot. split; [done|].
    intros (k & [= Hk] & (x & -> & Hx)%list_elem_of_fmap)%list_elem_of_fmap.
    apply unseen_spec in Hx as [Hx _].
    rewrite fmap_app in Hnd. apply NoDup_app in Hnd as (_ & Hdisj & _).
    apply (Hdisj (Item.key x)); [by apply list_elem_of_fmap_2|].
    rewrite <- Hk. by apply list_elem_of_fmap_2, list_elem_of_In. }
  assert (unseen o (l1 ++ l2) = unseen o l1 ++ unseen o l2) as ->
    by apply List.filter_app.
  unfold o1. simpl. by rewrite fmap_app, app_assoc.
Qed.

Lemma reconcile_in_two_steps_witness :
  (reconcile [mkItem 3; mkItem 7] (initialOrdering (Some [3; 1]) [])
   ≫= reconcile [mkItem 1; mkItem 5])
  = reconcile ([mkItem 3; mkItem 7] ++ [mkItem 1; mkItem 5])
      (initialOrdering (Some [3; 1]) []).
Proof.
  apply (reconcile_in_two_steps (initialOrdering (Some [3; 1]) [])
           [mkItem 3; mkItem 7] [mkItem 1; mkItem 5]).
  - unfold WellFormed. simpl. repeat constructor.
  - apply (bool_decide_unpack _). vm_compute. exact I.
Defined.

(** X22. Removing or reordering items upstream does not touch the
    store: when every item of the new list already has an entry (in
    particular when the list is empty), reconciliation returns the same
    sequence of entries. *)
Theorem reconcile_nothing_new :
  ∀ (o : Ordering) (items : list Item.t),
    WellFormed o →
    (∀ item, item ∈ items → Some (Item.key item) ∈ keys o) →
    reconcile items o = Normal (array_of (elems o)).
Proof.
  intros o items Hwf Hin. rewrite (reconcile_wf items o Hwf).
  fold (unseen o items). rewrite (unseen_nil o items Hin). simpl.
  by rewrite app_nil_r.
Qed.

Lemma reconcile_nothing_new_witness :
  reconcile [mkItem 2; mkItem 3] (initialOrdering (Some [3; 1; 2]) [])
  = Normal (array_of (elems (initialOrdering (Some [3; 1; 2]) []))).
Proof.
  apply (reconcile_nothing_new (initialOrdering (Some [3; 1; 2]) []) [mkItem 2; mkItem 3]).
  - unfold WellFormed. simpl. repeat constructor.
  - intros item Hin. apply (bool_decide_unpack _).
    apply elem_of_cons in Hin as [->|Hin]; [vm_compute; exact I|].
    apply elem_of_cons in Hin as [->|Hin]; [vm_compute; exact I|].
    by apply elem_of_nil in Hin.
Defined.

Lemma append_cancel (p a b : string) : p +:+ a = p +:+ b → a = b.
Proof. induction p as [|c p IH]; simpl; [done|]. intros [= H]. by apply IH. Qed.

(** X23. Sections do not share a cookie: for one and the same prefix,
    two section names with the same cookie name are the same name; the
    cookies of the sections "in-progress" and "completed" differ. *)
Theorem order_cookie_injective :
  ∀ (ORDER_COOKIE name1 name2 : string),
    (order_cookie ORDER_COOKIE name1 = order_cookie ORDER_COOKIE name2 →
     name1 = name2)
    ∧ order_cookie ORDER_COOKIE "in-progress" ≠ order_cookie ORDER_COOKIE "completed".
Proof.
  intros P n1 n2. unfold order_cookie. split.
  - intros H. apply append_cancel in H. by apply (append_cancel "-") in H.
  - intros H. apply append_cancel in H. discriminate H.
Qed.

Lemma order_cookie_injective_witness :
  "completed" = "completed".
Proof.
  apply (proj1 (order_cookie_injective "order" "completed" "completed")).
  reflexivity.
Defined.

(** ** The button factory *)

(** X24. A button made without options renders only with a label of its
    own: [button(Icon, options)(props)] throws exactly when [options] is
    [undefined] or [null] and [props['aria-label']] is [undefined] or
    [null]. *)
Theorem button_TypeError :
  ∀ {Handler Attr : Type}
    (options : Buttons.JsVal (@Buttons.ButtonOptions Handler))
    (props : @Buttons.ButtonProps Handler Attr),
    Buttons.button options props = TypeError
    ↔ Buttons.nullish options = true
      ∧ Buttons.nullish (Buttons.aria_label props) = true.
Proof.
  intros Handler Attr options props. unfold Buttons.button.
  destruct (Buttons.aria_label props), options; simpl; split; (done || by intros []).
Qed.

(** X25. Who wins: with an options object the button always renders;
    the click handler of the options, when it is neither [undefined] nor
    [null], replaces the one of the props, whereas the label of the props,
    when it is neither, replaces the one of the options; every other
    attribute and handler is the one of the props; and the icon gets the
    default colour classes exactly when the options have no
    [additionalIconClass] property. *)
Theorem button_precedence :
  ∀ {Handler Attr : Type}
    (o : @Buttons.ButtonOptions Handler)
    (props : @Buttons.ButtonProps Handler Attr),
    ∃ el,
      Buttons.button (Buttons.val o) props = Normal el
      ∧ Buttons.el_onClick el
        = Buttons.coalesce (Buttons.read (Buttons.opt_onClick o)) (Buttons.onClick props)
      ∧ Buttons.el_aria_label el
        = Buttons.coalesce (Buttons.aria_label props) (Buttons.read (Buttons.ariaLabel o))
      ∧ (Buttons.el_role el, Buttons.el_className el,
         Buttons.el_aria_haspopup el, Buttons.el_aria_expanded el,
         Buttons.el_aria_checked el)
        = (Buttons.role props, Buttons.className props,
           Buttons.aria_haspopup props, Buttons.aria_expanded props,
           Buttons.aria_checked props)
      ∧ (Buttons.el_onMouseDown el, Buttons.el_onMouseUp el,
         Buttons.el_onPointerDown el, Buttons.el_onPointerUp el)
        = (Buttons.onMouseDown props, Buttons.onMouseUp props,
           Buttons.onPointerDown props, Buttons.onPointerUp props)
      ∧ (Buttons.additionalIconClass o = None →
         Buttons.icon_className el
         = "flex-none h-6 outline outline-2 outline-transparent focus:outline-blue-500 text-slate-400 hover:text-slate-900")
      ∧ (∀ v, Buttons.additionalIconClass o = Some v →
              Buttons.icon_className el
              = "flex-none h-6 outline outline-2 outline-transparent focus:outline-blue-500 "
                +:+ Buttons.interpolate v).
Proof.
  intros Handler Attr o props. unfold Buttons.button.
  destruct (Buttons.aria_label props) eqn:Hl; simpl;
    (eexists; split; [done|]; simpl; rewrite ?Hl;
     split_and!; try done; [by intros ->|by intros v ->]).
Qed.
